(** * Yo: a minimal content-addressed version-control core (src/main.go)

    A shallow embedding of the four repository operations of [main.go]
    ([yoInit], [yoAdd], [yoCommit], [yoLog]) and of [hashObject], over an
    explicit model of the file system and of the clock, of the command
    dispatcher ([main]) and of the terminal interface ([model], [startUI]),
    followed by the properties of the design document that concern them and
    by further properties of the code.

    Go strings and byte slices are byte sequences; both are kept as
    [string] (every [ascii] is one byte), so [string(content)] and
    [[]byte(content)] are the identity. *)

From Stdlib Require Import ZArith List String Ascii Lia Bool.
From stdpp Require Import base option gmap strings list pretty.

Local Open Scope Z_scope.

(** ** crypto/sha1

    [hashObject] calls [sha1.New], [Write] and [Sum] of Go's standard
    library, which is not part of the repository.  The functions below
    follow the library's generic block function ([blockGeneric]) and its
    padding ([checkSum]), that is FIPS 180-4, section 6.1. *)
Module Sha1.

Definition chunk : nat := 64.
Definition Size : nat := 20.

Definition init0 : Z := 0x67452301.
Definition init1 : Z := 0xEFCDAB89.
Definition init2 : Z := 0x98BADCFE.
Definition init3 : Z := 0x10325476.
Definition init4 : Z := 0xC3D2E1F0.

Definition _K0 : Z := 0x5A827999.
Definition _K1 : Z := 0x6ED9EBA1.
Definition _K2 : Z := 0x8F1BBCDC.
Definition _K3 : Z := 0xCA62C1D6.

(** [uint32] arithmetic: every result is reduced modulo [2^32]. *)
Definition u32 (x : Z) : Z := x mod 2 ^ 32.
Definition add32 (x y : Z) : Z := u32 (x + y).
Definition not32 (x : Z) : Z := Z.lxor x 0xFFFFFFFF.
(** [bits.RotateLeft32] *)
Definition RotateLeft32 (x : Z) (k : Z) : Z :=
  u32 (Z.lor (Z.shiftl x k) (Z.shiftr x (32 - k))).

(** The digest state [dig.h]. *)
Record digest : Type := Digest { h0 : Z; h1 : Z; h2 : Z; h3 : Z; h4 : Z }.

Definition initial : digest := Digest init0 init1 init2 init3 init4.

(** [uint32(p[j])<<24 | uint32(p[j+1])<<16 | uint32(p[j+2])<<8 | uint32(p[j+3])] *)
Definition be32 (b0 b1 b2 b3 : Z) : Z :=
  Z.lor (Z.lor (Z.lor (Z.shiftl b0 24) (Z.shiftl b1 16)) (Z.shiftl b2 8)) b3.

Fixpoint words (p : list Z) : list Z :=
  match p with
  | b0 :: b1 :: b2 :: b3 :: rest => be32 b0 b1 b2 b3 :: words rest
  | _ => []
  end.

(** The round function and constant of round [i]. *)
Definition f (i : nat) (b c d : Z) : Z :=
  if (i <? 20)%nat then Z.lor (Z.land b c) (Z.land (not32 b) d)
  else if (i <? 40)%nat then Z.lxor (Z.lxor b c) d
  else if (i <? 60)%nat then Z.lor (Z.land (Z.lor b c) d) (Z.land b c)
  else Z.lxor (Z.lxor b c) d.

Definition K (i : nat) : Z :=
  if (i <? 20)%nat then _K0
  else if (i <? 40)%nat then _K1
  else if (i <? 60)%nat then _K2
  else _K3.

(** The sixteen-word window [w] is kept newest first: when round [i >= 16]
    starts, position [k] holds the word of round [i - 1 - k], so the word
    the library reads at [w[(i-3)&0xf]] is at position 2, and so on;
    [w[i&0xf]], about to be overwritten, is the word of round [i - 16]. *)
Definition next_word (w : list Z) : Z :=
  RotateLeft32
    (Z.lxor (Z.lxor (Z.lxor (nth 2 w 0) (nth 7 w 0)) (nth 13 w 0)) (nth 15 w 0)) 1.

Record regs : Type := Regs { ra : Z; rb : Z; rc : Z; rd : Z; re : Z }.

Definition round (i : nat) (wi : Z) (r : regs) : regs :=
  let t := add32 (add32 (add32 (add32 (RotateLeft32 (ra r) 5) (f i (rb r) (rc r) (rd r)))
                               (re r)) wi) (K i) in
  Regs t (ra r) (RotateLeft32 (rb r) 30) (rc r) (rd r).

(** Rounds [i], [i+1], ... for [n] rounds; [todo] holds the message words
    not yet consumed (rounds 0 to 15), [w] the window. *)
Fixpoint rounds (n i : nat) (todo w : list Z) (r : regs) : regs :=
  match n with
  | O => r
  | S n' =>
      match todo with
      | wi :: todo' => rounds n' (S i) todo' (wi :: w) (round i wi r)
      | [] =>
          let wi := next_word w in
          rounds n' (S i) [] (wi :: firstn 15 w) (round i wi r)
      end
  end.

(** One iteration of the loop of [blockGeneric] on a 64-byte chunk. *)
Definition block (dig : digest) (p : list Z) : digest :=
  let r := rounds 80 0 (words p) [] (Regs (h0 dig) (h1 dig) (h2 dig) (h3 dig) (h4 dig)) in
  Digest (add32 (h0 dig) (ra r)) (add32 (h1 dig) (rb r)) (add32 (h2 dig) (rc r))
         (add32 (h3 dig) (rd r)) (add32 (h4 dig) (re r)).

(** [blockGeneric]: [for len(p) >= chunk { ...; p = p[chunk:] }]. *)
Fixpoint blockGeneric (fuel : nat) (dig : digest) (p : list Z) : digest :=
  match fuel with
  | O => dig
  | S fuel' =>
      if (chunk <=? length p)%nat
      then blockGeneric fuel' (block dig (firstn chunk p)) (skipn chunk p)
      else dig
  end.

(** Big-endian bytes of a 64-bit and of a 32-bit value. *)
Definition byte_at (x : Z) (k : Z) : Z := Z.land (Z.shiftr x (8 * k)) 0xFF.
Definition PutUint64 (x : Z) : list Z :=
  map (byte_at x) [7; 6; 5; 4; 3; 2; 1; 0].
Definition PutUint32 (x : Z) : list Z :=
  map (byte_at x) [3; 2; 1; 0].

(** [checkSum]: a 0x80 byte, zero bytes up to 56 modulo 64, then the
    length in bits as a 64-bit big-endian number. *)
Definition padding (len : nat) : list Z :=
  let t := (len mod 64)%nat in
  let zeros := if (t <? 56)%nat then (55 - t)%nat else (119 - t)%nat in
  0x80 :: repeat 0 zeros ++ PutUint64 (Z.of_nat len * 8 mod 2 ^ 64).

Definition checkSum (p : list Z) : digest :=
  let padded := p ++ padding (length p) in
  blockGeneric (length padded) initial padded.

(** [Sum(nil)]: the five state words, big-endian, 20 bytes. *)
Definition digest_bytes (d : digest) : list Z :=
  PutUint32 (h0 d) ++ PutUint32 (h1 d) ++ PutUint32 (h2 d) ++
  PutUint32 (h3 d) ++ PutUint32 (h4 d).

Definition Sum (p : list Z) : list Z := digest_bytes (checkSum p).

End Sha1.

(** ** encoding/hex *)
Module Hex.

Definition hextable : string := "0123456789abcdef".

Definition digit (n : Z) : ascii :=
  match String.get (Z.to_nat n) hextable with
  | Some c => c
  | None => "0"%char
  end.

(** [EncodeToString]: two digits per byte, high nibble first. *)
Fixpoint EncodeToString (src : list Z) : string :=
  match src with
  | [] => EmptyString
  | v :: rest =>
      String (digit (Z.shiftr v 4)) (String (digit (Z.land v 0x0f)) (EncodeToString rest))
  end.

End Hex.

(** ** hashObject (main.go, lines 187-192) *)

(** [[]byte(content)]: the bytes of a string as numbers below 256. *)
Definition bytes_of (content : string) : list Z :=
  map (fun c => Z.of_nat (nat_of_ascii c)) (list_ascii_of_string content).

Definition hashObject (content : string) : string :=
  Hex.EncodeToString (Sha1.Sum (bytes_of content)).


(** ** The environment: file system and clock

    The library calls of [main.go] ([os], [io/ioutil], [path/filepath],
    [time]) act on the world outside the program.  The world is kept as an
    explicit state: a tree of files and directories addressed by resolved
    paths ([files]), the working directory as [os.Getwd] reports it
    ([cwd]), the calls the underlying storage refuses, whatever the reason
    (permissions, device errors, quota: [faulty]), and the readings the
    clock will give, with the number of those taken so far ([clock],
    [ticks]).

    A call the storage does not refuse fails only for what the tree itself
    forbids: a missing file or directory, a directory where a file is
    expected.  A call that fails leaves the file system as it found it
    (a write cut short half way is not modelled), and closing a file
    ([defer f.Close()]) changes nothing.  A call looks at the entry its
    path names and at the directory that is to hold it, not further up:
    on the trees a file system keeps, where every entry lies in a
    directory, the one difference is that a path running through a regular
    file is answered [ENOENT] where the system says [ENOTDIR]. *)
Module Fs.

(** A resolved path: the components from the root directory down. *)
Abbreviation Path := (list string).

Inductive Node : Type :=
| File (content : string)
| Dir.

Inductive Errno : Type :=
| ENOENT | ENOTDIR | EISDIR | EEXIST | ENOTEMPTY | EBADF | EIO.

Inductive Syscall : Type :=
| SysGetwd
| SysStat (k : Path)
| SysRead (k : Path)
| SysCreate (k : Path)      (* WriteFile: create or truncate, and write *)
| SysOpen (k : Path)        (* OpenFile with O_APPEND|O_CREATE|O_WRONLY *)
| SysWrite (k : Path)       (* write on an open handle *)
| SysRemove (k : Path)
| SysMkdir (k : Path).

(** A reading of the clock, as far as the program observes it: through
    [Time.String] and through [Time.Format(time.RFC1123)]. *)
Record Time : Type := { time_String : string; time_RFC1123 : string }.

Record World : Type := {
  files : gmap Path Node;
  cwd : string;
  faulty : Syscall -> bool;
  clock : nat -> Time;
  ticks : nat
}.

Definition with_files (w : World) (m : gmap Path Node) : World :=
  {| files := m; cwd := cwd w; faulty := faulty w; clock := clock w; ticks := ticks w |}.

(** *** Path resolution *)

Definition sep : ascii := "/"%char.

Definition snoc (s : string) (c : ascii) : string := s +:+ String c EmptyString.

(** The non-empty components of a path string ([acc] is the component
    being read). *)
Fixpoint split_acc (acc : string) (s : string) : list string :=
  match s with
  | EmptyString => if decide (acc = EmptyString) then [] else [acc]
  | String c s' =>
      if Ascii.eqb c sep
      then (if decide (acc = EmptyString) then [] else [acc]) ++ split_acc EmptyString s'
      else split_acc (snoc acc c) s'
  end.

Definition components (s : string) : list string := split_acc EmptyString s.

Definition is_abs (s : string) : bool :=
  match s with
  | String c _ => Ascii.eqb c sep
  | EmptyString => false
  end.

(** Walking down from [at_]: [.] stays, [..] goes up. *)
Fixpoint walk (at_ : Path) (cs : list string) : Path :=
  match cs with
  | [] => at_
  | c :: cs' =>
      walk (if decide (c = ".") then at_
            else if decide (c = "..") then removelast at_
            else at_ ++ [c]) cs'
  end.

Definition cwd_path (w : World) : Path := walk [] (components (cwd w)).

Definition resolve (w : World) (p : string) : Path :=
  walk (if is_abs p then [] else cwd_path w) (components p).

(** The root directory always exists. *)
Definition node_at (m : gmap Path Node) (k : Path) : option Node :=
  match k with
  | [] => Some Dir
  | _ => m !! k
  end.

Definition parent (k : Path) : Path := removelast k.

Definition has_entries (m : gmap Path Node) (k : Path) : bool :=
  existsb (fun kv => bool_decide (parent (fst kv) = k /\ fst kv <> [])) (map_to_list m).

(** *** Calls: each returns its result and the world it leaves. *)

Definition IO (E A : Type) : Type := World -> (E + A) * World.

Definition ret {E A} (a : A) : IO E A := fun w => (inr a, w).
Definition fail {E A} (e : E) : IO E A := fun w => (inl e, w).
Definition bind {E A B} (c : IO E A) (k : A -> IO E B) : IO E B :=
  fun w => match c w with
           | (inl e, w') => (inl e, w')
           | (inr a, w') => k a w'
           end.

(** A call on a path string acts on the place the string resolves to. *)
Definition at_path {E A} (p : string) (call : Path -> IO E A) : IO E A :=
  fun w => call (resolve w p) w.

(** [os.Getwd] *)
Definition Getwd : IO Errno string :=
  fun w => if faulty w SysGetwd then (inl EIO, w) else (inr (cwd w), w).

Definition stat_at (k : Path) : IO Errno Node :=
  fun w =>
    if faulty w (SysStat k) then (inl EIO, w)
    else match node_at (files w) k with
         | Some n => (inr n, w)
         | None => (inl ENOENT, w)
         end.

(** [os.Stat], as far as the program looks at its result. *)
Definition Stat (p : string) : IO Errno Node := at_path p stat_at.

(** [os.IsNotExist] *)
Definition IsNotExist (e : option Errno) : bool :=
  match e with
  | Some ENOENT => true
  | _ => false
  end.

(** [os.Mkdir] on a resolved path. *)
Definition mkdir_at (k : Path) : IO Errno unit :=
  fun w =>
    if faulty w (SysMkdir k) then (inl EIO, w)
    else match node_at (files w) k with
         | Some _ => (inl EEXIST, w)
         | None =>
             match node_at (files w) (parent k) with
             | Some Dir => (inr tt, with_files w (<[k := Dir]> (files w)))
             | Some (File _) => (inl ENOTDIR, w)
             | None => (inl ENOENT, w)
             end
         end.

(** The directories on the way from [base] down [rest] that are missing
    are made, outermost first; a file on the way is an error. *)
Fixpoint mkdir_all_from (base : Path) (rest : list string) : IO Errno unit :=
  match rest with
  | [] => ret tt
  | c :: rest' =>
      let k := base ++ [c] in
      fun w =>
        match node_at (files w) k with
        | Some Dir => mkdir_all_from k rest' w
        | Some (File _) => (inl ENOTDIR, w)
        | None => bind (mkdir_at k) (fun _ => mkdir_all_from k rest') w
        end
  end.

(** [os.MkdirAll] *)
Definition MkdirAll (p : string) : IO Errno unit := at_path p (mkdir_all_from []).

Definition read_at (k : Path) : IO Errno string :=
  fun w =>
    if faulty w (SysRead k) then (inl EIO, w)
    else match node_at (files w) k with
         | Some (File content) => (inr content, w)
         | Some Dir => (inl EISDIR, w)
         | None => (inl ENOENT, w)
         end.

(** [ioutil.ReadFile] *)
Definition ReadFile (p : string) : IO Errno string := at_path p read_at.

(** Creating an entry needs its directory. *)
Definition create_at (k : Path) (content : string) : IO Errno unit :=
  fun w =>
    match node_at (files w) (parent k) with
    | Some Dir => (inr tt, with_files w (<[k := File content]> (files w)))
    | Some (File _) => (inl ENOTDIR, w)
    | None => (inl ENOENT, w)
    end.

Definition write_at (data : string) (k : Path) : IO Errno unit :=
  fun w =>
    if faulty w (SysCreate k) then (inl EIO, w)
    else match node_at (files w) k with
         | Some (File _) => (inr tt, with_files w (<[k := File data]> (files w)))
         | Some Dir => (inl EISDIR, w)
         | None => create_at k data w
         end.

(** [ioutil.WriteFile]: the file is created or truncated, then written. *)
Definition WriteFile (p : string) (data : string) : IO Errno unit :=
  at_path p (write_at data).

Definition open_append_at (k : Path) : IO Errno Path :=
  fun w =>
    if faulty w (SysOpen k) then (inl EIO, w)
    else match node_at (files w) k with
         | Some (File _) => (inr k, w)
         | Some Dir => (inl EISDIR, w)
         | None => bind (create_at k EmptyString) (fun _ => ret k) w
         end.

(** [os.OpenFile(p, os.O_APPEND|os.O_CREATE|os.O_WRONLY, 0644)]: the
    handle returned stands for the file at the resolved path. *)
Definition OpenFile_append (p : string) : IO Errno Path := at_path p open_append_at.

(** [File.WriteString] on a handle opened for appending. *)
Definition WriteString (f : Path) (s : string) : IO Errno unit :=
  fun w =>
    if faulty w (SysWrite f) then (inl EIO, w)
    else match node_at (files w) f with
         | Some (File content) =>
             (inr tt, with_files w (<[f := File (content +:+ s)]> (files w)))
         | _ => (inl EBADF, w)
         end.

Definition remove_at (k : Path) : IO Errno unit :=
  fun w =>
    if faulty w (SysRemove k) then (inl EIO, w)
    else match files w !! k with
         | Some (File _) => (inr tt, with_files w (delete k (files w)))
         | Some Dir =>
             if has_entries (files w) k then (inl ENOTEMPTY, w)
             else (inr tt, with_files w (delete k (files w)))
         | None => (inl ENOENT, w)
         end.

(** [os.Remove]: a file, or an empty directory. *)
Definition Remove (p : string) : IO Errno unit := at_path p remove_at.

Definition tick (w : World) : World :=
  {| files := files w; cwd := cwd w; faulty := faulty w;
     clock := clock w; ticks := S (ticks w) |}.

(** [time.Now]: the next reading of the clock. *)
Definition Now {E} : IO E Time :=
  fun w => (inr (clock w (ticks w)), tick w).

(** [filepath.Join]: the non-empty elements, separated.  The result is
    not cleaned here: [resolve] sends a path and its cleaned form to the
    same place. *)
Fixpoint join_sep (elem : list string) : string :=
  match elem with
  | [] => EmptyString
  | [e] => e
  | e :: rest => e +:+ String sep (join_sep rest)
  end.

Definition Join (elem : list string) : string :=
  join_sep (filter (fun e => e <> EmptyString) elem).

End Fs.


(** ** The program (main.go) *)
Module Yo.
Import Fs.

(** A Go [error] built by [fmt.Errorf]: the format and, for [%w], the
    operating-system error it wraps. *)
Inductive error : Type :=
| Errorf (format : string) (wrapped : option Errno).

Notation "x <- c ;; k" := (bind c (fun x => k))
  (at level 100, c at next level, right associativity).

(** [v, err := call]: the outcome of a call as a value. *)
Definition attempt {E A} (c : IO Errno A) : IO E (Errno + A) :=
  fun w => (inr (fst (c w)), snd (c w)).

Definition err_of {A} (r : Errno + A) : option Errno :=
  match r with
  | inl e => Some e
  | inr _ => None
  end.

(** [if err != nil { return fmt.Errorf(format, err) }] *)
Definition check {A} (format : string) (c : IO Errno A) : IO error A :=
  fun w => match c w with
           | (inl e, w') => (inl (Errorf format (Some e)), w')
           | (inr a, w') => (inr a, w')
           end.

(** [repoPath, _ := os.Getwd()]: on failure [Getwd] returns the empty
    string, and the error is dropped. *)
Definition Getwd_ : IO error string :=
  r <- attempt Getwd ;;
  ret (match r with inl _ => EmptyString | inr dir => dir end).

Definition newline : string := String "010"%char EmptyString.

(** main.go, lines 90-110 *)
Definition yoInit : IO error unit :=
  currentDir <- check "failed to get current directory: %w" Getwd ;;
  let repoPath := Join [currentDir; ".yo"] in
  r <- attempt (Stat repoPath) ;;
  if negb (IsNotExist (err_of r))
  then fail (Errorf ".yo directory already exists" None)
  else
    _ <- check "failed to create .yo directory: %w" (MkdirAll (Join [repoPath; "objects"])) ;;
    _ <- check "failed to create logs directory: %w" (MkdirAll (Join [repoPath; "logs"])) ;;
    ret tt.

(** [fmt.Sprintf("%s %s\n", hash, file)] *)
Definition stagingEntry (hash file : string) : string :=
  hash +:+ " " +:+ file +:+ newline.

(** main.go, lines 112-138 *)
Definition yoAdd (file : string) : IO error unit :=
  content <- check "failed to read file: %w" (ReadFile file) ;;
  let hash := hashObject content in
  repoPath <- Getwd_ ;;
  let objectPath := Join [repoPath; ".yo"; "objects"; hash] in
  _ <- check "failed to write object file: %w" (WriteFile objectPath content) ;;
  let stagingPath := Join [repoPath; ".yo"; "staging"] in
  f <- check "failed to open staging area: %w" (OpenFile_append stagingPath) ;;
  _ <- check "failed to write to staging area: %w" (WriteString f (stagingEntry hash file)) ;;
  ret tt.

(** [fmt.Sprintf("Commit: %s\nMessage: %s\nTime: %s\n\n", commitHash, message, t)] *)
Definition logEntry (commitHash message t : string) : string :=
  "Commit: " +:+ commitHash +:+ newline +:+
  "Message: " +:+ message +:+ newline +:+
  "Time: " +:+ t +:+ newline +:+ newline.

(** main.go, line 149: [hashObject(string(stagingContent) + message + time.Now().String())] *)
Definition commitHash (stagingContent message : string) (now : Time) : string :=
  hashObject (stagingContent +:+ message +:+ time_String now).

(** main.go, lines 140-173 *)
Definition yoCommit (message : string) : IO error unit :=
  repoPath <- Getwd_ ;;
  let stagingPath := Join [repoPath; ".yo"; "staging"] in
  stagingContent <- check "failed to read staging area: %w" (ReadFile stagingPath) ;;
  now1 <- Now ;;
  let commitHash := commitHash stagingContent message now1 in
  let commitPath := Join [repoPath; ".yo"; "objects"; commitHash] in
  _ <- check "failed to write commit object: %w" (WriteFile commitPath stagingContent) ;;
  now2 <- Now ;;
  let entry := logEntry commitHash message (time_RFC1123 now2) in
  let logPath := Join [repoPath; ".yo"; "logs"; "commits"] in
  logFile <- check "failed to open log file: %w" (OpenFile_append logPath) ;;
  _ <- check "failed to write log entry: %w" (WriteString logFile entry) ;;
  _ <- check "failed to clear staging area: %w" (Remove stagingPath) ;;
  ret tt.

(** main.go, lines 175-185 *)
Definition yoLog : IO error string :=
  repoPath <- Getwd_ ;;
  let logPath := Join [repoPath; ".yo"; "logs"; "commits"] in
  logContent <- check "failed to read log file: %w" (ReadFile logPath) ;;
  ret logContent.

End Yo.

(** ** The terminal interface (main.go, lines 16-38 and 194-200) *)
Module Ui.
Import Yo.

(** [type model struct { message string }] *)
Record model : Type := Model { message : string }.

(** A [tea.Msg], as far as [Update] tells messages apart: a key press,
    under the name [KeyMsg.String] gives it, or any other message. *)
Inductive Msg : Type :=
| KeyMsg (name : string)
| OtherMsg.

(** A [tea.Cmd] that is not [nil]. *)
Inductive Cmd : Type :=
| Quit.

Definition Init (m : model) : option Cmd := None.

Definition Update (m : model) (msg : Msg) : model * option Cmd :=
  match msg with
  | KeyMsg name =>
      if decide (name = "ctrl+c") then (m, Some Quit)
      else if decide (name = "q") then (m, Some Quit)
      else (m, None)
  | OtherMsg => (m, None)
  end.

(** [fmt.Sprintf("\n%s\n\nPress 'q' to quit.\n", m.message)] *)
Definition View (m : model) : string :=
  newline +:+ message m +:+ newline +:+ newline +:+ "Press 'q' to quit." +:+ newline.

(** The program [startUI] runs, as far as [main.go] takes part in it: the
    library draws [View] at the start and after every message it hands to
    [Update], and stops once [Update] has answered [tea.Quit] (the command
    is taken to act at once; the library runs it on a thread of its own).
    The result is what was drawn, in order, and the messages left unread.
    A failure of the library itself ([p.Start] returning an error, which
    ends the process) is not modelled. *)
Fixpoint eventLoop (m : model) (msgs : list Msg) : list string * list Msg :=
  match msgs with
  | [] => ([], [])
  | msg :: rest =>
      let (m', cmd) := Update m msg in
      match cmd with
      | Some Quit => ([View m'], rest)
      | None => let (drawn, unread) := eventLoop m' rest in (View m' :: drawn, unread)
      end
  end.

Definition startUI (message : string) (msgs : list Msg) : list string * list Msg :=
  let m := Model message in
  let (drawn, unread) := eventLoop m msgs in
  (View m :: drawn, unread).

End Ui.

(** ** The command line (main.go, lines 40-88) *)
Module Cli.
Import Fs Yo.

(** What [main] hands to [startUI]: a text, or [fmt.Sprintf(format, err)]
    for a format with one [%v]; the text of an error is the library's. *)
Inductive Shown : Type :=
| Text (message : string)
| Sprintf_v (format : string) (err : error).

(** [strings.Join] *)
Fixpoint strings_Join (elems : list string) (sep : string) : string :=
  match elems with
  | [] => EmptyString
  | [e] => e
  | e :: rest => e +:+ sep +:+ strings_Join rest sep
  end.

(** [main], given [os.Args]: what is shown, and the world left. *)
Definition main (Args : list string) : World -> Shown * World :=
  fun w =>
    match Args with
    | [] | [_] => (Text "Usage: yo <command>", w)
    | _ :: command :: rest =>
        if decide (command = "init") then
          match yoInit w with
          | (inl err, w') => (Sprintf_v "Error initializing repository: %v" err, w')
          | (inr _, w') => (Text "Initialized empty Yo repository successfully!", w')
          end
        else if decide (command = "add") then
          match rest with
          | [] => (Text "Usage: yo add <file>", w)
          | file :: _ =>
              match yoAdd file w with
              | (inl err, w') => (Sprintf_v "Error adding file: %v" err, w')
              | (inr _, w') => (Text ("Added " +:+ file +:+ " to staging area."), w')
              end
          end
        else if decide (command = "commit") then
          match rest with
          | [] => (Text "Usage: yo commit <message>", w)
          | _ :: _ =>
              let message := strings_Join rest " " in
              match yoCommit message w with
              | (inl err, w') => (Sprintf_v "Error committing changes: %v" err, w')
              | (inr _, w') => (Text "Changes committed successfully!", w')
              end
          end
        else if decide (command = "log") then
          match yoLog w with
          | (inl err, w') => (Sprintf_v "Error displaying log: %v" err, w')
          | (inr log, w') => (Text log, w')
          end
        else (Text ("Unknown command: " +:+ command), w)
    end.

End Cli.

Import Fs Yo.

(** * The vocabulary of the properties *)

(** ** Characters and names *)

(** Whether a string contains a given character. *)
Fixpoint occurs (c : ascii) (s : string) : bool :=
  match s with
  | EmptyString => false
  | String c' s' => Ascii.eqb c' c || occurs c s'
  end.

(** A plain name: one path component, neither [.] nor [..]. *)
Definition plain (c : string) : Prop :=
  c <> EmptyString /\ occurs sep c = false /\ c <> "." /\ c <> "..".

(** Whether every character of a string passes a test. *)
Fixpoint string_forallb (p : ascii -> bool) (s : string) : bool :=
  match s with
  | EmptyString => true
  | String c s' => p c && string_forallb p s'
  end.

(** The characters [0]-[9] and [a]-[f]. *)
Definition lower_hex (c : ascii) : bool :=
  let n := nat_of_ascii c in
  ((48 <=? n) && (n <=? 57) || (97 <=? n) && (n <=? 102))%nat.


(** ** The places of the repository *)

(** What [repoPath, _ := os.Getwd()] leaves in [repoPath]. *)
Definition repoPath_of (w : World) : string :=
  if faulty w SysGetwd then EmptyString else cwd w.

(** The directory the repository lives in: where that string leads. *)
Definition repoDir (w : World) : Path := resolve w (repoPath_of w).

(** [.yo], [.yo/objects], [.yo/logs], [.yo/staging], [.yo/objects/<hash>]
    and [.yo/logs/commits] there. *)
Definition yoKey (w : World) : Path := repoDir w ++ [".yo"].

Definition objectsKey (w : World) : Path := repoDir w ++ [".yo"; "objects"].

Definition logsKey (w : World) : Path := repoDir w ++ [".yo"; "logs"].

Definition stagingKey (w : World) : Path := repoDir w ++ [".yo"; "staging"].

Definition objectKey (w : World) (hash : string) : Path :=
  repoDir w ++ [".yo"; "objects"; hash].

Definition logKey (w : World) : Path := repoDir w ++ [".yo"; "logs"; "commits"].

(** The staging record and the history log, when they are there. *)
Definition stagingRecord (w : World) : option string :=
  match files w !! stagingKey w with
  | Some (File content) => Some content
  | _ => None
  end.

Definition historyLog (w : World) : option string :=
  match files w !! logKey w with
  | Some (File content) => Some content
  | _ => None
  end.

(** What a file holds, the empty string when there is no file: what a file
    opened for appending starts from. *)
Definition content_or_empty (m : gmap Path Node) (k : Path) : string :=
  match m !! k with
  | Some (File content) => content
  | _ => EmptyString
  end.

(** ** What a call leaves alone *)

(** No call changes the working directory, what the storage refuses, or
    the readings the clock will give. *)
Definition same_env (w w' : World) : Prop :=
  cwd w' = cwd w /\ faulty w' = faulty w /\ clock w' = clock w.

(** A call that keeps them, whatever the world it runs in. *)
Definition keeps_env {E A} (c : IO E A) : Prop :=
  forall w, same_env w (snd (c w)).

(** ** The operations on resolved places *)

(** [yoCommit], with every path replaced by the place it resolves to. *)
Definition commit_at (w0 : World) (message : string) : IO error unit :=
  stagingContent <- check "failed to read staging area: %w" (read_at (stagingKey w0)) ;;
  now1 <- Now ;;
  let commitHash := commitHash stagingContent message now1 in
  _ <- check "failed to write commit object: %w"
         (write_at stagingContent (objectKey w0 commitHash)) ;;
  now2 <- Now ;;
  let entry := logEntry commitHash message (time_RFC1123 now2) in
  logFile <- check "failed to open log file: %w" (open_append_at (logKey w0)) ;;
  _ <- check "failed to write log entry: %w" (WriteString logFile entry) ;;
  _ <- check "failed to clear staging area: %w" (remove_at (stagingKey w0)) ;;
  ret tt.

(** [yoAdd], with every path replaced by the place it resolves to. *)
Definition add_at (w0 : World) (file : string) : IO error unit :=
  content <- check "failed to read file: %w" (read_at (resolve w0 file)) ;;
  let hash := hashObject content in
  _ <- check "failed to write object file: %w" (write_at content (objectKey w0 hash)) ;;
  f <- check "failed to open staging area: %w" (open_append_at (stagingKey w0)) ;;
  _ <- check "failed to write to staging area: %w" (WriteString f (stagingEntry hash file)) ;;
  ret tt.

(** [yoLog], likewise. *)
Definition log_at (w0 : World) : IO error string :=
  logContent <- check "failed to read log file: %w" (read_at (logKey w0)) ;;
  ret logContent.

(** [yoInit], likewise. *)
Definition init_at (w0 : World) : IO error unit :=
  _ <- check "failed to get current directory: %w" Getwd ;;
  r <- attempt (stat_at (yoKey w0)) ;;
  if negb (IsNotExist (err_of r))
  then fail (Errorf ".yo directory already exists" None)
  else
    _ <- check "failed to create .yo directory: %w" (mkdir_all_from [] (objectsKey w0)) ;;
    _ <- check "failed to create logs directory: %w" (mkdir_all_from [] (logsKey w0)) ;;
    ret tt.

(** ** The steps of a commit *)

(** The staging record is there and can be read. *)
Definition staged (w : World) (stagingContent : string) : Prop :=
  faulty w (SysRead (stagingKey w)) = false /\
  files w !! stagingKey w = Some (File stagingContent).

Section CommitSteps.
Variables (w : World) (message stagingContent : string).

(** The digest and the log record of the commit that starts in [w]: the
    first reading of the clock is hashed, the second one is displayed. *)
Definition commitDigest : string :=
  commitHash stagingContent message (clock w (ticks w)).

Definition commitRecord : string :=
  logEntry commitDigest message (time_RFC1123 (clock w (S (ticks w)))).

(** The files after each step. *)
Definition objectWritten : gmap Path Node :=
  <[objectKey w commitDigest := File stagingContent]> (files w).

Definition logOpened : gmap Path Node :=
  <[logKey w := File (content_or_empty (files w) (logKey w))]> objectWritten.

Definition logAppended : gmap Path Node :=
  <[logKey w := File (content_or_empty (files w) (logKey w) +:+ commitRecord)]> objectWritten.

Definition stagingCleared : gmap Path Node :=
  delete (stagingKey w) logAppended.

End CommitSteps.

(** Every way a commit can end. *)
Inductive commit_outcome (w : World) (message : string) : (error + unit) * World -> Prop :=
| ReadFailed e :
    read_at (stagingKey w) w = (inl e, w) ->
    commit_outcome w message
      (inl (Errorf "failed to read staging area: %w" (Some e)), w)
| ObjectFailed s e :
    staged w s ->
    write_at s (objectKey w (commitDigest w message s)) (tick w) = (inl e, tick w) ->
    commit_outcome w message
      (inl (Errorf "failed to write commit object: %w" (Some e)), tick w)
| OpenLogFailed s e :
    staged w s ->
    (let w2 := with_files (tick (tick w)) (objectWritten w message s) in
     open_append_at (logKey w) w2 = (inl e, w2)) ->
    commit_outcome w message
      (inl (Errorf "failed to open log file: %w" (Some e)),
       with_files (tick (tick w)) (objectWritten w message s))
| WriteLogFailed s e :
    staged w s ->
    (let w3 := with_files (tick (tick w)) (logOpened w message s) in
     WriteString (logKey w) (commitRecord w message s) w3 = (inl e, w3)) ->
    commit_outcome w message
      (inl (Errorf "failed to write log entry: %w" (Some e)),
       with_files (tick (tick w)) (logOpened w message s))
| ClearFailed s :
    staged w s ->
    faulty w (SysRemove (stagingKey w)) = true ->
    commit_outcome w message
      (inl (Errorf "failed to clear staging area: %w" (Some EIO)),
       with_files (tick (tick w)) (logAppended w message s))
| Committed s :
    staged w s ->
    commit_outcome w message
      (inr tt, with_files (tick (tick w)) (stagingCleared w message s)).

(** ** Lines and texts *)

Fixpoint count_char (c : ascii) (s : string) : nat :=
  match s with
  | EmptyString => 0
  | String c' s' => (if Ascii.eqb c' c then 1 else 0) + count_char c s'
  end.

Definition LF : ascii := "010"%char.

(** The number of line ends in a text. *)
Definition line_count (s : string) : nat := count_char LF s.




(** ** The steps of staging *)

Section AddSteps.
Variables (w : World) (file content : string).

Definition objectStored : gmap Path Node :=
  <[objectKey w (hashObject content) := File content]> (files w).

Definition stagingOpened : gmap Path Node :=
  <[stagingKey w := File (content_or_empty (files w) (stagingKey w))]> objectStored.

Definition stagingAppended : gmap Path Node :=
  <[stagingKey w := File (content_or_empty (files w) (stagingKey w) +:+
                          stagingEntry (hashObject content) file)]> objectStored.

End AddSteps.

(** Every way staging a file can end. *)
Inductive add_outcome (w : World) (file : string) : (error + unit) * World -> Prop :=
| AddReadFailed e :
    read_at (resolve w file) w = (inl e, w) ->
    add_outcome w file (inl (Errorf "failed to read file: %w" (Some e)), w)
| AddObjectFailed content e :
    read_at (resolve w file) w = (inr content, w) ->
    add_outcome w file (inl (Errorf "failed to write object file: %w" (Some e)), w)
| AddOpenFailed content e :
    read_at (resolve w file) w = (inr content, w) ->
    add_outcome w file
      (inl (Errorf "failed to open staging area: %w" (Some e)),
       with_files w (objectStored w content))
| AddWriteFailed content e :
    read_at (resolve w file) w = (inr content, w) ->
    add_outcome w file
      (inl (Errorf "failed to write to staging area: %w" (Some e)),
       with_files w (stagingOpened w content))
| Added content :
    read_at (resolve w file) w = (inr content, w) ->
    add_outcome w file (inr tt, with_files w (stagingAppended w file content)).






(** ** Digests as numbers *)




(** ** Bootstrap and histories *)

(** A storage that refuses nothing. *)
Definition reliable (w : World) : Prop := forall call, faulty w call = false.

(** The working directory and every directory above it exist. *)
Definition cwd_exists (w : World) : Prop :=
  forall q, q `prefix_of` repoDir w -> node_at (files w) q = Some Dir.

(** Nothing is at [.yo] or below it. *)
Definition no_repository (w : World) : Prop :=
  forall rest, files w !! (yoKey w ++ rest) = None.

(** The files once [.yo], [.yo/objects] and [.yo/logs] are made. *)
Definition initialized (w : World) : gmap Path Node :=
  <[logsKey w := Dir]> (<[objectsKey w := Dir]> (<[yoKey w := Dir]> (files w))).

(** The operations of the tool. *)
Inductive Op : Type :=
| OpInit
| OpAdd (file : string)
| OpCommit (message : string)
| OpLog.

Definition run_op (op : Op) (w : World) : World :=
  match op with
  | OpInit => snd (yoInit w)
  | OpAdd file => snd (yoAdd file w)
  | OpCommit message => snd (yoCommit message w)
  | OpLog => snd (yoLog w)
  end.


Fixpoint run_ops (ops : list Op) (w : World) : World :=
  match ops with
  | [] => w
  | op :: ops' => run_ops ops' (run_op op w)
  end.



(** ** When an operation goes through *)

(** A file can be written at [k]: a file is there already, or nothing is
    and the directory that is to hold it exists. *)
Definition writable (m : gmap Path Node) (k : Path) : bool :=
  match node_at m k with
  | Some (File _) => true
  | Some Dir => false
  | None =>
      match node_at m (parent k) with
      | Some Dir => true
      | _ => false
      end
  end.

(** The files once [.yo], and once [.yo] and [.yo/objects], are made. *)
Definition yoMade (w : World) : gmap Path Node := <[yoKey w := Dir]> (files w).

Definition objectsMade (w : World) : gmap Path Node :=
  <[objectsKey w := Dir]> (yoMade w).

(** ** What an operation touches *)

(** What one operation can do to the entry at [k]: leave it; make a
    directory on the way to [.yo/objects] or [.yo/logs] where nothing was
    (init); write a file in the object collection; append to the log; or
    [k] is the place of the staging record. *)
Inductive touched (w : World) (k : Path) (after : option Node) : Prop :=
| Untouched : after = files w !! k -> touched w k after
| DirectoryMade :
    files w !! k = None -> after = Some Dir ->
    k `prefix_of` objectsKey w \/ k `prefix_of` logsKey w ->
    touched w k after
| ObjectWritten hash content :
    k = objectKey w hash -> after = Some (File content) -> touched w k after
| LogAppended more :
    k = logKey w ->
    after = Some (File (content_or_empty (files w) k +:+ more)) ->
    touched w k after
| StagingTouched : k = stagingKey w -> touched w k after.


(** ** The keys of the terminal interface *)

(** Whether a message makes [Update] answer [tea.Quit]. *)
Definition quits (msg : Ui.Msg) : bool :=
  match msg with
  | Ui.KeyMsg name => bool_decide (name = "q") || bool_decide (name = "ctrl+c")
  | Ui.OtherMsg => false
  end.

(** ** Sample worlds *)

Definition decimal_digit (n : nat) : string :=
  String (ascii_of_nat (48 + n mod 10)) EmptyString.

(** A clock whose readings differ in their seconds. *)
Definition sample_clock (n : nat) : Time :=
  {| time_String := "2024-01-01 10:00:0" +:+ decimal_digit n +:+ ".000000001 +0000 UTC m=+" +:+
                    decimal_digit n +:+ ".000000001";
     time_RFC1123 := "Mon, 01 Jan 2024 10:00:0" +:+ decimal_digit n +:+ " UTC" |}.


(** A home directory with one file, and a storage that refuses nothing. *)
Definition home_world : World :=
  {| files := {[ ["home"] := Dir; ["home"; "a.txt"] := File "hello" ]};
     cwd := "/home";
     faulty := fun _ => false;
     clock := sample_clock;
     ticks := 0 |}.

(** The files after [yo init], after [yo add a.txt], and after
    [yo commit first] at the first two readings of the clock. *)
Definition repo_files : gmap Path Node :=
  {[ ["home"] := Dir;
     ["home"; "a.txt"] := File "hello";
     ["home"; ".yo"] := Dir;
     ["home"; ".yo"; "objects"] := Dir;
     ["home"; ".yo"; "logs"] := Dir ]}.

Definition staged_files : gmap Path Node :=
  <[ ["home"; ".yo"; "staging"] :=
       File ("aaf4c61ddcc5e8a2dabede0f3b482cd9aea9434d a.txt" +:+ newline) ]>
    (<[ ["home"; ".yo"; "objects"; "aaf4c61ddcc5e8a2dabede0f3b482cd9aea9434d"] :=
          File "hello" ]> repo_files).

Definition first_record : string :=
  "Commit: e94737050a1c54da377848b63ed4ea7d91afe223" +:+ newline +:+
  "Message: first" +:+ newline +:+
  "Time: Mon, 01 Jan 2024 10:00:01 UTC" +:+ newline +:+ newline.

Definition committed_files : gmap Path Node :=
  <[ ["home"; ".yo"; "logs"; "commits"] := File first_record ]>
    (<[ ["home"; ".yo"; "objects"; "e94737050a1c54da377848b63ed4ea7d91afe223"] :=
          File ("aaf4c61ddcc5e8a2dabede0f3b482cd9aea9434d a.txt" +:+ newline) ]>
       (<[ ["home"; ".yo"; "objects"; "aaf4c61ddcc5e8a2dabede0f3b482cd9aea9434d"] :=
             File "hello" ]> repo_files)).

Definition repo_world : World := with_files home_world repo_files.

Definition staged_world : World := with_files home_world staged_files.

Definition committed_world : World := with_files (tick (tick home_world)) committed_files.

(** Odd file names are file names too: one with a line break in it. *)
Definition odd_name : string := "a" +:+ newline +:+ "b".

Definition odd_world : World :=
  with_files home_world (<[ ["home"; odd_name] := File "odd" ]> repo_files).

Definition odd_staged_world : World :=
  with_files home_world
    (<[ ["home"; ".yo"; "staging"] :=
          File ("60f7a51208a50e4639fc53af2d60b808f4429a1e " +:+ odd_name +:+ newline) ]>
       (<[ ["home"; ".yo"; "objects"; "60f7a51208a50e4639fc53af2d60b808f4429a1e"] :=
             File "odd" ]>
          (<[ ["home"; odd_name] := File "odd" ]> repo_files))).






(** A storage that refuses to make [.yo/logs]. *)
Definition no_logs_world : World :=
  {| files := {[ ["home"] := Dir; ["home"; "a.txt"] := File "hello" ]};
     cwd := "/home";
     faulty := fun call =>
                 match call with
                 | SysMkdir k => bool_decide (k = ["home"; ".yo"; "logs"])
                 | _ => false
                 end;
     clock := sample_clock;
     ticks := 0 |}.

(** * Facts about the model *)

(** ** Strings *)

Lemma string_app_cons (c : ascii) (s t : string) :
  String c s +:+ t = String c (s +:+ t).
Proof. reflexivity. Qed.

Lemma string_app_nil_l (s : string) : EmptyString +:+ s = s.
Proof. reflexivity. Qed.

Lemma string_app_assoc (s1 s2 s3 : string) :
  (s1 +:+ s2) +:+ s3 = s1 +:+ (s2 +:+ s3).
Proof.
  induction s1 as [|c s1 IH]; [reflexivity|].
  now rewrite !string_app_cons, IH.
Qed.

Lemma string_app_nil_r (s : string) : s +:+ EmptyString = s.
Proof.
  induction s as [|c s IH]; [reflexivity|].
  now rewrite string_app_cons, IH.
Qed.

Lemma string_app_inv_head (s t1 t2 : string) : s +:+ t1 = s +:+ t2 -> t1 = t2.
Proof.
  induction s as [|c s IH]; [auto|].
  rewrite !string_app_cons. intros H. injection H. exact IH.
Qed.

Lemma string_app_length (s t : string) :
  String.length (s +:+ t) = (String.length s + String.length t)%nat.
Proof.
  induction s as [|c s IH]; [reflexivity|].
  rewrite string_app_cons. simpl. now rewrite IH.
Qed.

Lemma string_app_inv_tail (s1 s2 t : string) : s1 +:+ t = s2 +:+ t -> s1 = s2.
Proof.
  revert s2. induction s1 as [|c s1 IH]; intros [|d s2] H.
  - reflexivity.
  - apply (f_equal String.length) in H. rewrite string_app_nil_l, string_app_cons in H.
    simpl in H. rewrite string_app_length in H. lia.
  - apply (f_equal String.length) in H. rewrite string_app_nil_l, string_app_cons in H.
    simpl in H. rewrite string_app_length in H. lia.
  - rewrite !string_app_cons in H. injection H as -> H. f_equal. now apply IH.
Qed.

(** ** Paths *)


Lemma split_acc_sep acc s t :
  split_acc acc (s +:+ String sep t) = split_acc acc s ++ split_acc EmptyString t.
Proof.
  revert acc. induction s as [|c s IH]; intros acc.
  - reflexivity.
  - rewrite string_app_cons. simpl. destruct (Ascii.eqb c sep).
    + now rewrite IH, app_assoc.
    + apply IH.
Qed.

Lemma split_acc_name acc s :
  occurs sep s = false -> acc +:+ s <> EmptyString -> split_acc acc s = [acc +:+ s].
Proof.
  revert acc. induction s as [|c s IH]; intros acc Hs Hne; simpl in *.
  - rewrite string_app_nil_r in *. now destruct (decide (acc = EmptyString)).
  - apply orb_false_elim in Hs as [Hc Hs]. rewrite Hc.
    rewrite IH; unfold snoc; rewrite ?string_app_assoc, ?string_app_cons,
      ?string_app_nil_l; auto.
Qed.

Lemma components_name c :
  c <> EmptyString -> occurs sep c = false -> components c = [c].
Proof. intros Hne Hs. unfold components. now rewrite split_acc_name. Qed.

Lemma components_join_sep names :
  Forall plain names -> components (join_sep names) = names.
Proof.
  induction 1 as [|c names [Hne [Hs _]] Hall IH]; [reflexivity|].
  destruct names as [|c' names'].
  - simpl. now apply components_name.
  - change (join_sep (c :: c' :: names')) with (c +:+ String sep (join_sep (c' :: names'))).
    unfold components in *. rewrite split_acc_sep, IH.
    now rewrite (split_acc_name EmptyString c).
Qed.

Lemma is_abs_join_sep names : Forall plain names -> is_abs (join_sep names) = false.
Proof.
  intros Hall. destruct Hall as [|c names [Hne [Hs _]] Hall]; [reflexivity|].
  assert (Hc : is_abs c = false).
  { destruct c as [|a c]; [reflexivity|]. simpl in *.
    now apply orb_false_elim in Hs as [-> _]. }
  destruct names; simpl; [exact Hc|].
  destruct c; [congruence | exact Hc].
Qed.

Lemma walk_app at_ cs ds : walk at_ (cs ++ ds) = walk (walk at_ cs) ds.
Proof. revert at_. induction cs as [|c cs IH]; intros at_; simpl; [reflexivity | apply IH]. Qed.

Lemma walk_plain at_ names : Forall plain names -> walk at_ names = at_ ++ names.
Proof.
  intros Hall. revert at_.
  induction Hall as [|c names [_ [_ [Hd Hdd]]] Hall IH]; intros at_; simpl.
  - now rewrite app_nil_r.
  - destruct (decide (c = ".")); [contradiction|].
    destruct (decide (c = "..")); [contradiction|].
    now rewrite IH, <- app_assoc.
Qed.

Lemma filter_plain names :
  Forall plain names -> filter (fun e : string => e <> EmptyString) names = names.
Proof.
  induction 1 as [|c names [Hne _] Hall IH]; [reflexivity|].
  rewrite filter_cons_True by exact Hne. now rewrite IH.
Qed.

(** Joining plain names onto a path goes down from where that path leads. *)
Lemma resolve_Join w rp names :
  Forall plain names -> resolve w (Join (rp :: names)) = resolve w rp ++ names.
Proof.
  intros Hall. unfold Join.
  destruct (decide (rp = EmptyString)) as [->|Hrp].
  - rewrite filter_cons_False by (intros H; now apply H).
    rewrite filter_plain by exact Hall.
    unfold resolve. rewrite is_abs_join_sep, components_join_sep by exact Hall.
    simpl. apply walk_plain, Hall.
  - rewrite filter_cons_True by exact Hrp.
    rewrite filter_plain by exact Hall.
    destruct names as [|c names'].
    + simpl. now rewrite app_nil_r.
    + change (join_sep (rp :: c :: names')) with (rp +:+ String sep (join_sep (c :: names'))).
      unfold resolve, components.
      replace (is_abs (rp +:+ String sep (join_sep (c :: names')))) with (is_abs rp)
        by (destruct rp; [congruence | reflexivity]).
      rewrite split_acc_sep.
      change (split_acc EmptyString (join_sep (c :: names')))
        with (components (join_sep (c :: names'))).
      rewrite components_join_sep by exact Hall.
      rewrite walk_app. apply walk_plain, Hall.
Qed.

(** ** Digests *)

Lemma digit_lower_hex n : lower_hex (Hex.digit n) = true.
Proof.
  unfold Hex.digit. generalize (Z.to_nat n) as i. intros i.
  do 17 (destruct i as [|i]; [reflexivity|]). reflexivity.
Qed.

Lemma EncodeToString_lower_hex src :
  string_forallb lower_hex (Hex.EncodeToString src) = true.
Proof.
  induction src as [|v src IH]; simpl; [reflexivity|].
  now rewrite !digit_lower_hex, IH.
Qed.

Lemma EncodeToString_length src :
  String.length (Hex.EncodeToString src) = (2 * length src)%nat.
Proof. induction src as [|v src IH]; simpl; [reflexivity | rewrite IH; lia]. Qed.

Lemma Sum_length p : length (Sha1.Sum p) = Sha1.Size.
Proof. reflexivity. Qed.

Lemma hashObject_length content : String.length (hashObject content) = 40%nat.
Proof. unfold hashObject. now rewrite EncodeToString_length, Sum_length. Qed.

Lemma hashObject_lower_hex content :
  string_forallb lower_hex (hashObject content) = true.
Proof. apply EncodeToString_lower_hex. Qed.

Lemma forallb_occurs p c s :
  p c = false -> string_forallb p s = true -> occurs c s = false.
Proof.
  intros Hc. induction s as [|c' s IH]; simpl; [reflexivity|].
  intros [Hc' Hs]%andb_prop. rewrite (IH Hs), orb_false_r.
  destruct (Ascii.eqb_spec c' c); [congruence | reflexivity].
Qed.

Lemma hashObject_plain content : plain (hashObject content).
Proof.
  pose proof (hashObject_length content) as Hlen.
  repeat split.
  - intros H. now rewrite H in Hlen.
  - now apply (forallb_occurs lower_hex), hashObject_lower_hex.
  - intros H. now rewrite H in Hlen.
  - intros H. now rewrite H in Hlen.
Qed.

(** A digest has no line break and no space. *)
Lemma hashObject_no_newline content : occurs "010"%char (hashObject content) = false.
Proof. now apply (forallb_occurs lower_hex), hashObject_lower_hex. Qed.








(** ** What a call leaves alone *)

Lemma same_env_refl w : same_env w w.
Proof. now repeat split. Qed.

Lemma same_env_trans w1 w2 w3 : same_env w1 w2 -> same_env w2 w3 -> same_env w1 w3.
Proof. intros (? & ? & ?) (? & ? & ?). repeat split; congruence. Qed.

Lemma same_env_resolve w w' p : same_env w w' -> resolve w' p = resolve w p.
Proof. intros (Hc & _). unfold resolve, cwd_path. now rewrite Hc. Qed.

Lemma same_env_repoDir w w' : same_env w w' -> repoDir w' = repoDir w.
Proof.
  intros H. unfold repoDir, repoPath_of.
  rewrite (same_env_resolve _ _ _ H). destruct H as (-> & -> & _). reflexivity.
Qed.

Lemma keeps_env_bind {E A B} (c : IO E A) (k : A -> IO E B) :
  keeps_env c -> (forall a, keeps_env (k a)) -> keeps_env (bind c k).
Proof.
  intros Hc Hk w. unfold bind. specialize (Hc w).
  destruct (c w) as [[e|a] w1]; simpl in *; [exact Hc|].
  eapply same_env_trans; [exact Hc | apply Hk].
Qed.

Lemma keeps_env_ret {E A} (a : A) : keeps_env (@ret E A a).
Proof. intros w. apply same_env_refl. Qed.

Lemma keeps_env_fail {E A} (e : E) : keeps_env (@fail E A e).
Proof. intros w. apply same_env_refl. Qed.

Lemma keeps_env_check {A} format (c : IO Errno A) : keeps_env c -> keeps_env (check format c).
Proof. intros Hc w. unfold check. specialize (Hc w). now destruct (c w) as [[e|a] w1]. Qed.

Lemma keeps_env_attempt {E A} (c : IO Errno A) : keeps_env c -> keeps_env (@attempt E A c).
Proof. intros Hc w. apply Hc. Qed.

Lemma keeps_env_at_path {E A} p (call : Path -> IO E A) :
  (forall k, keeps_env (call k)) -> keeps_env (at_path p call).
Proof. intros H w. apply H. Qed.

Ltac env_cases :=
  intros w; repeat (simpl; case_match); simpl; now repeat split.

Lemma keeps_env_Getwd : keeps_env Getwd.
Proof. unfold Getwd. env_cases. Qed.

Lemma keeps_env_Now {E} : keeps_env (@Now E).
Proof. unfold Now. env_cases. Qed.

Lemma keeps_env_stat_at k : keeps_env (stat_at k).
Proof. unfold stat_at. env_cases. Qed.

Lemma keeps_env_read_at k : keeps_env (read_at k).
Proof. unfold read_at. env_cases. Qed.

Lemma keeps_env_create_at k data : keeps_env (create_at k data).
Proof. unfold create_at. env_cases. Qed.

Lemma keeps_env_write_at data k : keeps_env (write_at data k).
Proof. unfold write_at, create_at. env_cases. Qed.

Lemma keeps_env_open_append_at k : keeps_env (open_append_at k).
Proof.
  intros w. unfold open_append_at, bind, create_at, ret.
  destruct (faulty w (SysOpen k)); [apply same_env_refl|].
  destruct (node_at (files w) k) as [[?|]|]; try apply same_env_refl.
  destruct (node_at (files w) (parent k)) as [[?|]|]; simpl; now repeat split.
Qed.

Lemma keeps_env_WriteString f s : keeps_env (WriteString f s).
Proof. unfold WriteString. env_cases. Qed.

Lemma keeps_env_remove_at k : keeps_env (remove_at k).
Proof. unfold remove_at. env_cases. Qed.

Lemma keeps_env_mkdir_at k : keeps_env (mkdir_at k).
Proof. unfold mkdir_at. env_cases. Qed.

Lemma keeps_env_mkdir_all_from base rest : keeps_env (mkdir_all_from base rest).
Proof.
  revert base. induction rest as [|c rest IH]; intros base; simpl.
  - apply keeps_env_ret.
  - intros w. destruct (node_at (files w) (base ++ [c])) as [[?|]|].
    + apply same_env_refl.
    + apply IH.
    + apply keeps_env_bind; [apply keeps_env_mkdir_at | intros _; apply IH].
Qed.

Create HintDb env discriminated.

#[export] Hint Resolve keeps_env_ret keeps_env_fail keeps_env_check keeps_env_attempt
  keeps_env_at_path keeps_env_Getwd keeps_env_Now keeps_env_stat_at keeps_env_read_at
  keeps_env_create_at keeps_env_write_at keeps_env_open_append_at keeps_env_WriteString
  keeps_env_remove_at keeps_env_mkdir_at keeps_env_mkdir_all_from same_env_refl : env.

(** Two continuations that agree on every world with the environment of
    [w] give the same run from [w]. *)
Lemma bind_same_env {E A B} (c : IO E A) (k1 k2 : A -> IO E B) w :
  keeps_env c ->
  (forall a w', same_env w w' -> k1 a w' = k2 a w') ->
  bind c k1 w = bind c k2 w.
Proof.
  intros Hc Hk. unfold bind. specialize (Hc w).
  destruct (c w) as [[e|a] w1]; simpl in *; [reflexivity | now apply Hk].
Qed.

Lemma at_path_same_env {E A} p (call : Path -> IO E A) w w' :
  same_env w w' -> at_path p call w' = call (resolve w p) w'.
Proof. intros H. unfold at_path. now rewrite (same_env_resolve _ _ _ H). Qed.

(** ** The operations on resolved places *)

Lemma plain_names :
  plain ".yo" /\ plain "objects" /\ plain "logs" /\ plain "staging" /\ plain "commits".
Proof. repeat split; first [discriminate | reflexivity]. Qed.

Lemma resolve_staging w repoPath :
  resolve w (Join [repoPath; ".yo"; "staging"]) = resolve w repoPath ++ [".yo"; "staging"].
Proof. apply resolve_Join. repeat constructor; apply plain_names. Qed.

Lemma resolve_object w repoPath content :
  resolve w (Join [repoPath; ".yo"; "objects"; hashObject content]) =
  resolve w repoPath ++ [".yo"; "objects"; hashObject content].
Proof.
  apply resolve_Join.
  repeat constructor; first [apply plain_names | apply hashObject_plain].
Qed.

Lemma resolve_log w repoPath :
  resolve w (Join [repoPath; ".yo"; "logs"; "commits"]) =
  resolve w repoPath ++ [".yo"; "logs"; "commits"].
Proof. apply resolve_Join. repeat constructor; apply plain_names. Qed.

Lemma Getwd__run w : Getwd_ w = (inr (repoPath_of w), w).
Proof.
  unfold Getwd_, bind, attempt, Getwd, ret, repoPath_of.
  now destruct (faulty w SysGetwd).
Qed.

Lemma bind_check_at_path {A B} format p (call : Path -> IO Errno A)
      (k : A -> IO error B) w0 w :
  same_env w0 w ->
  bind (check format (at_path p call)) k w =
  bind (check format (call (resolve w0 p))) k w.
Proof.
  intros H. unfold bind, check. now rewrite (at_path_same_env _ _ _ _ H).
Qed.

Ltac into_bind H :=
  apply bind_same_env; [auto 6 with env | intros ? ? H].

Lemma yoCommit_at message w : yoCommit message w = commit_at w message w.
Proof.
  unfold yoCommit, commit_at.
  unfold bind at 1. rewrite Getwd__run.
  unfold ReadFile, WriteFile, OpenFile_append, Remove.
  rewrite (bind_check_at_path _ _ _ _ w w), resolve_staging by apply same_env_refl.
  into_bind H1. into_bind H2.
  assert (H12 := same_env_trans _ _ _ H1 H2).
  unfold commitHash at 1 3.
  rewrite (bind_check_at_path _ _ _ _ w), resolve_object by exact H12.
  into_bind H3. assert (H13 := same_env_trans _ _ _ H12 H3).
  into_bind H4. assert (H14 := same_env_trans _ _ _ H13 H4).
  rewrite (bind_check_at_path _ _ _ _ w), resolve_log by exact H14.
  into_bind H5. assert (H15 := same_env_trans _ _ _ H14 H5).
  into_bind H6. assert (H16 := same_env_trans _ _ _ H15 H6).
  rewrite (bind_check_at_path _ _ _ _ w), resolve_staging by exact H16.
  reflexivity.
Qed.

Lemma same_env_repoPath_of w w' : same_env w w' -> repoPath_of w' = repoPath_of w.
Proof. intros (Hc & Hf & _). unfold repoPath_of. now rewrite Hc, Hf. Qed.

Lemma bind_Getwd_ {B} (k : string -> IO error B) w0 w :
  same_env w0 w -> bind Getwd_ k w = k (repoPath_of w0) w.
Proof.
  intros H. unfold bind at 1. now rewrite Getwd__run, (same_env_repoPath_of _ _ H).
Qed.

Lemma yoAdd_at file w : yoAdd file w = add_at w file w.
Proof.
  unfold yoAdd, add_at.
  unfold ReadFile, WriteFile, OpenFile_append.
  rewrite (bind_check_at_path _ _ _ _ w w) by apply same_env_refl.
  into_bind H1.
  rewrite (bind_Getwd_ _ w) by exact H1.
  rewrite (bind_check_at_path _ _ _ _ w), resolve_object by exact H1.
  into_bind H2. assert (H12 := same_env_trans _ _ _ H1 H2).
  rewrite (bind_check_at_path _ _ _ _ w), resolve_staging by exact H12.
  reflexivity.
Qed.

Lemma yoLog_at w : yoLog w = log_at w w.
Proof.
  unfold yoLog, log_at, ReadFile.
  rewrite (bind_Getwd_ _ w) by apply same_env_refl.
  now rewrite (bind_check_at_path _ _ _ _ w w), resolve_log by apply same_env_refl.
Qed.

Lemma resolve_yo w repoPath :
  resolve w (Join [repoPath; ".yo"]) = resolve w repoPath ++ [".yo"].
Proof. apply resolve_Join. repeat constructor; apply plain_names. Qed.

Lemma resolve_yo_sub w repoPath name :
  plain name ->
  resolve w (Join [Join [repoPath; ".yo"]; name]) = resolve w repoPath ++ [".yo"; name].
Proof.
  intros Hn. rewrite resolve_Join by (constructor; [exact Hn | constructor]).
  now rewrite resolve_yo, <- app_assoc.
Qed.

Lemma bind_check_Getwd {B} format (k : string -> IO error B) w :
  bind (check format Getwd) k w =
  if faulty w SysGetwd then (inl (Errorf format (Some EIO)), w) else k (cwd w) w.
Proof. unfold bind, check, Getwd. now destruct (faulty w SysGetwd). Qed.

Lemma bind_attempt_at_path {A B} p (call : Path -> IO Errno A)
      (k : Errno + A -> IO error B) w :
  bind (attempt (at_path p call)) k w = bind (attempt (call (resolve w p))) k w.
Proof. reflexivity. Qed.

Lemma yoInit_at w : yoInit w = init_at w w.
Proof.
  unfold yoInit, init_at. rewrite !bind_check_Getwd.
  unfold yoKey, objectsKey, logsKey, repoDir, repoPath_of.
  destruct (faulty w SysGetwd); [reflexivity|].
  unfold Stat, MkdirAll.
  rewrite bind_attempt_at_path, resolve_yo.
  into_bind H1.
  destruct (negb _); [reflexivity|].
  rewrite (bind_check_at_path _ _ _ _ w), resolve_yo_sub by (exact H1 || apply plain_names).
  into_bind H2. assert (H12 := same_env_trans _ _ _ H1 H2).
  rewrite (bind_check_at_path _ _ _ _ w), resolve_yo_sub by (exact H12 || apply plain_names).
  reflexivity.
Qed.

(** ** The calls, one by one *)

Lemma node_at_sub (m : gmap Path Node) base c rest :
  node_at m (base ++ c :: rest) = m !! (base ++ c :: rest).
Proof. now destruct base. Qed.

Lemma parent_sub base c d rest :
  parent (base ++ c :: d :: rest) = base ++ removelast (c :: d :: rest).
Proof. unfold parent. now rewrite removelast_app. Qed.

Lemma with_files_id w : with_files w (files w) = w.
Proof. now destruct w. Qed.

Lemma read_at_inr k w content w' :
  read_at k w = (inr content, w') ->
  w' = w /\ faulty w (SysRead k) = false /\ node_at (files w) k = Some (File content).
Proof.
  unfold read_at. intros H.
  destruct (faulty w (SysRead k)); [discriminate|].
  destruct (node_at (files w) k) as [[c|]|]; try discriminate.
  now injection H as -> ->.
Qed.

Lemma read_at_inl k w e w' :
  read_at k w = (inl e, w') ->
  w' = w /\
  e = (if faulty w (SysRead k) then EIO
       else match node_at (files w) k with Some Dir => EISDIR | _ => ENOENT end).
Proof.
  unfold read_at. intros H.
  destruct (faulty w (SysRead k)); [now injection H as <- <-|].
  destruct (node_at (files w) k) as [[c|]|]; try discriminate; now injection H as <- <-.
Qed.

Lemma create_at_inr k data w w' :
  create_at k data w = (inr tt, w') ->
  w' = with_files w (<[k := File data]> (files w)) /\
  node_at (files w) (parent k) = Some Dir.
Proof.
  unfold create_at. intros H.
  destruct (node_at (files w) (parent k)) as [[c|]|]; try discriminate.
  now injection H as <-.
Qed.

Lemma create_at_inl k data w e w' : create_at k data w = (inl e, w') -> w' = w.
Proof.
  unfold create_at. intros H.
  destruct (node_at (files w) (parent k)) as [[c|]|]; try discriminate;
    now injection H as _ <-.
Qed.

Lemma write_at_inr data k w w' :
  write_at data k w = (inr tt, w') ->
  w' = with_files w (<[k := File data]> (files w)) /\
  faulty w (SysCreate k) = false /\ node_at (files w) k <> Some Dir.
Proof.
  unfold write_at. intros H.
  destruct (faulty w (SysCreate k)); [discriminate|].
  destruct (node_at (files w) k) as [[c|]|]; try discriminate.
  - now injection H as <-.
  - now apply create_at_inr in H as [-> _].
Qed.

Lemma write_at_inl data k w e w' : write_at data k w = (inl e, w') -> w' = w.
Proof.
  unfold write_at. intros H.
  destruct (faulty w (SysCreate k)); [now injection H as _ <-|].
  destruct (node_at (files w) k) as [[c|]|]; try discriminate.
  - now injection H as _ <-.
  - now apply create_at_inl in H.
Qed.

Lemma open_append_at_inr base c rest w f w' :
  open_append_at (base ++ c :: rest) w = (inr f, w') ->
  let k := base ++ c :: rest in
  f = k /\
  w' = with_files w (<[k := File (content_or_empty (files w) k)]> (files w)) /\
  faulty w (SysOpen k) = false /\ files w !! k <> Some Dir.
Proof.
  unfold open_append_at, content_or_empty. rewrite node_at_sub. intros H.
  destruct (faulty w (SysOpen _)); [discriminate|].
  destruct (files w !! (base ++ c :: rest)) as [[old|]|] eqn:Hk; try discriminate.
  - injection H as <- <-. rewrite insert_id by exact Hk. now rewrite with_files_id.
  - unfold bind, ret in H.
    destruct (create_at _ _ w) as [[e|[]] w1] eqn:Hc; [discriminate|].
    injection H as <- <-. now apply create_at_inr in Hc as [-> _].
Qed.

Lemma open_append_at_inl k w e w' : open_append_at k w = (inl e, w') -> w' = w.
Proof.
  unfold open_append_at. intros H.
  destruct (faulty w (SysOpen k)); [now injection H as _ <-|].
  destruct (node_at (files w) k) as [[old|]|]; try discriminate.
  - now injection H as _ <-.
  - unfold bind, ret in H.
    destruct (create_at _ _ w) as [[e'|[]] w1] eqn:Hc; [|discriminate].
    injection H as _ <-. now apply create_at_inl in Hc.
Qed.

Lemma WriteString_inr base c rest s w w' :
  WriteString (base ++ c :: rest) s w = (inr tt, w') ->
  let f := base ++ c :: rest in
  exists content,
    files w !! f = Some (File content) /\
    w' = with_files w (<[f := File (content +:+ s)]> (files w)).
Proof.
  unfold WriteString. rewrite node_at_sub. intros H.
  destruct (faulty w (SysWrite _)); [discriminate|].
  destruct (files w !! (base ++ c :: rest)) as [[content|]|]; try discriminate.
  injection H as <-. now exists content.
Qed.

Lemma WriteString_inl f s w e w' : WriteString f s w = (inl e, w') -> w' = w.
Proof.
  unfold WriteString. intros H.
  destruct (faulty w (SysWrite f)); [now injection H as _ <-|].
  destruct (node_at (files w) f) as [[content|]|]; try discriminate;
    now injection H as _ <-.
Qed.

Lemma remove_at_file k w content :
  files w !! k = Some (File content) ->
  remove_at k w =
  if faulty w (SysRemove k) then (inl EIO, w)
  else (inr tt, with_files w (delete k (files w))).
Proof. unfold remove_at. now intros ->. Qed.

(** The places of the repository are distinct. *)
Lemma object_staging_ne w hash : objectKey w hash <> stagingKey w.
Proof. unfold objectKey, stagingKey. intros H%app_inv_head. discriminate. Qed.

Lemma log_staging_ne w : logKey w <> stagingKey w.
Proof. unfold logKey, stagingKey. intros H%app_inv_head. discriminate. Qed.

Lemma log_object_ne w hash : logKey w <> objectKey w hash.
Proof. unfold logKey, objectKey. intros H%app_inv_head. discriminate. Qed.

(** ** The steps of a commit and of staging *)

Lemma content_or_empty_insert_ne (m : gmap Path Node) k k' n :
  k <> k' -> content_or_empty (<[k := n]> m) k' = content_or_empty m k'.
Proof. intros H. unfold content_or_empty. now rewrite lookup_insert_ne. Qed.

Lemma tick_with_files w m : tick (with_files w m) = with_files (tick w) m.
Proof. reflexivity. Qed.

Lemma with_files_with_files w m m' : with_files (with_files w m) m' = with_files w m'.
Proof. reflexivity. Qed.

Lemma files_tick w : files (tick w) = files w.
Proof. reflexivity. Qed.

Lemma yoCommit_outcome message w : commit_outcome w message (yoCommit message w).
Proof.
  rewrite yoCommit_at. unfold commit_at, bind, check.
  destruct (read_at (stagingKey w) w) as [[e|s] w1] eqn:Hread.
  { destruct (read_at_inl _ _ _ _ Hread) as [-> _]. now apply ReadFailed. }
  apply read_at_inr in Hread as (-> & Hfault & Hs).
  unfold stagingKey in Hs. rewrite node_at_sub in Hs.
  assert (Hst : staged w s) by (split; assumption).
  unfold Now at 1. fold (commitDigest w message s).
  destruct (write_at s _ (tick w)) as [[e|[]] w2] eqn:Hwrite.
  { pose proof (write_at_inl _ _ _ _ _ Hwrite) as ->. now apply (ObjectFailed _ _ s e). }
  apply write_at_inr in Hwrite as (-> & _ & _).
  unfold Now at 1. rewrite tick_with_files, files_tick. unfold logKey at 1.
  destruct (open_append_at _ _) as [[e|f] w3] eqn:Hopen.
  { pose proof (open_append_at_inl _ _ _ _ Hopen) as ->. now apply (OpenLogFailed _ _ s e). }
  apply open_append_at_inr in Hopen as (-> & -> & _ & _).
  rewrite with_files_with_files. cbn [files with_files].
  fold (logKey w).
  rewrite content_or_empty_insert_ne by (apply not_eq_sym, log_object_ne).
  fold (objectWritten w message s). fold (logOpened w message s).
  set (entry := logEntry _ _ _).
  assert (Hentry : entry = commitRecord w message s) by reflexivity.
  clearbody entry. subst entry.
  unfold logKey at 1.
  destruct (WriteString _ _ _) as [[e|[]] w4] eqn:Hws.
  { pose proof (WriteString_inl _ _ _ _ _ Hws) as Hw4. subst w4.
    now apply (WriteLogFailed _ _ s e). }
  apply WriteString_inr in Hws as (content & Hcontent & ->).
  rewrite with_files_with_files. cbn [files with_files] in *. fold (logKey w) in *.
  unfold logOpened in Hcontent at 1. rewrite lookup_insert_eq in Hcontent.
  injection Hcontent as <-.
  unfold logOpened. rewrite insert_insert_eq. fold (logAppended w message s).
  assert (Hsk : logAppended w message s !! stagingKey w = Some (File s)).
  { unfold logAppended, objectWritten.
    rewrite !lookup_insert_ne by (apply log_staging_ne || apply object_staging_ne).
    exact Hs. }
  erewrite (remove_at_file (stagingKey w) (with_files _ _)) by exact Hsk.
  cbn [faulty with_files tick files].
  destruct (faulty w (SysRemove (stagingKey w))) eqn:Hrm.
  - now apply ClearFailed.
  - now apply Committed.
Qed.

Lemma yoAdd_outcome file w : add_outcome w file (yoAdd file w).
Proof.
  rewrite yoAdd_at. unfold add_at, bind, check.
  destruct (read_at (resolve w file) w) as [[e|content] w1] eqn:Hread.
  { destruct (read_at_inl _ _ _ _ Hread) as [-> _]. now apply AddReadFailed. }
  pose proof (read_at_inr _ _ _ _ Hread) as (-> & _ & _).
  destruct (write_at content _ w) as [[e|[]] w2] eqn:Hwrite.
  { pose proof (write_at_inl _ _ _ _ _ Hwrite) as ->. now apply (AddObjectFailed _ _ content e). }
  apply write_at_inr in Hwrite as (-> & _ & _).
  fold (objectStored w content). unfold stagingKey at 1.
  destruct (open_append_at _ _) as [[e|f] w3] eqn:Hopen.
  { pose proof (open_append_at_inl _ _ _ _ Hopen) as ->. now apply (AddOpenFailed _ _ content e). }
  apply open_append_at_inr in Hopen as (-> & -> & _ & _).
  rewrite with_files_with_files. cbn [files with_files].
  fold (stagingKey w). unfold objectStored at 1.
  rewrite content_or_empty_insert_ne by apply object_staging_ne.
  fold (objectStored w content). fold (stagingOpened w content).
  unfold stagingKey at 1.
  destruct (WriteString _ _ _) as [[e|[]] w4] eqn:Hws.
  { pose proof (WriteString_inl _ _ _ _ _ Hws) as ->. now apply (AddWriteFailed _ _ content e). }
  apply WriteString_inr in Hws as (old & Hold & ->).
  rewrite with_files_with_files. cbn [files with_files] in *. fold (stagingKey w) in *.
  unfold stagingOpened in Hold at 1. rewrite lookup_insert_eq in Hold.
  injection Hold as <-.
  unfold stagingOpened. rewrite insert_insert_eq. fold (stagingAppended w file content).
  now apply Added.
Qed.

Lemma yoLog_run w :
  yoLog w =
  if faulty w (SysRead (logKey w))
  then (inl (Errorf "failed to read log file: %w" (Some EIO)), w)
  else match files w !! logKey w with
       | Some (File content) => (inr content, w)
       | Some Dir => (inl (Errorf "failed to read log file: %w" (Some EISDIR)), w)
       | None => (inl (Errorf "failed to read log file: %w" (Some ENOENT)), w)
       end.
Proof.
  rewrite yoLog_at. unfold log_at, bind, check, read_at, ret.
  unfold logKey at 2. rewrite node_at_sub. fold (logKey w).
  destruct (faulty w (SysRead (logKey w))); [reflexivity|].
  now destruct (files w !! logKey w) as [[c|]|].
Qed.

(** ** Lines of the staging record *)

Lemma count_char_app c s1 s2 :
  count_char c (s1 +:+ s2) = (count_char c s1 + count_char c s2)%nat.
Proof.
  induction s1 as [|c' s1 IH]; [reflexivity|].
  rewrite string_app_cons. simpl. rewrite IH. lia.
Qed.

Lemma count_char_occurs c s : occurs c s = true <-> (0 < count_char c s)%nat.
Proof.
  induction s as [|c' s IH]; simpl; [split; [discriminate | lia]|].
  destruct (Ascii.eqb c' c); simpl; [split; [lia | reflexivity]|exact IH].
Qed.

Lemma count_char_none c s : occurs c s = false -> count_char c s = 0%nat.
Proof.
  intros H. destruct (count_char c s) eqn:E; [reflexivity|].
  assert (occurs c s = true) by (apply count_char_occurs; lia). congruence.
Qed.

Lemma line_count_entry hash file :
  occurs LF hash = false ->
  line_count (stagingEntry hash file) = S (count_char LF file).
Proof.
  intros Hh. unfold line_count, stagingEntry.
  rewrite !count_char_app, (count_char_none _ _ Hh). simpl. lia.
Qed.




(** ** The sample runs *)

(** Closes an equation between closed terms by evaluating both sides. *)
Ltac evaluated :=
  lazymatch goal with
  | |- ?x = ?y => exact (@eq_refl _ y <: x = y)
  end.

(** The model of [crypto/sha1] on the test vectors of the standard: the
    empty message, a short one, and one whose padding needs a second
    block. *)
Lemma sha1_test_vectors :
  hashObject EmptyString = "da39a3ee5e6b4b0d3255bfef95601890afd80709" /\
  hashObject "abc" = "a9993e364706816aba3e25717850c26c9cd0d89d" /\
  hashObject "abcdbcdecdefdefgefghfghighijhijkijkljklmklmnlmnomnopnopq" =
    "84983e441c3bd26ebaae4aa1f95129e5e54670f1".
Proof. repeat split; evaluated. Qed.

Lemma sample_init : yoInit home_world = (inr tt, repo_world).
Proof. evaluated. Qed.

Lemma sample_add : yoAdd "a.txt" repo_world = (inr tt, staged_world).
Proof. evaluated. Qed.

Lemma sample_commit : yoCommit "first" staged_world = (inr tt, committed_world).
Proof. evaluated. Qed.

Lemma sample_add_odd : yoAdd odd_name odd_world = (inr tt, odd_staged_world).
Proof. evaluated. Qed.


(** ** Staging in turn *)

Lemma content_or_empty_file (m : gmap Path Node) k content :
  m !! k = Some (File content) -> content_or_empty m k = content.
Proof. unfold content_or_empty. now intros ->. Qed.


(** ** The places stay where they are *)

Lemma same_env_with_files w m : same_env w (with_files w m).
Proof. now repeat split. Qed.

Lemma same_env_tick w : same_env w (tick w).
Proof. now repeat split. Qed.

Lemma same_env_commit w m : same_env w (with_files (tick (tick w)) m).
Proof. now repeat split. Qed.

Lemma stagingKey_env w w' : same_env w w' -> stagingKey w' = stagingKey w.
Proof. intros H. unfold stagingKey. now rewrite (same_env_repoDir _ _ H). Qed.

Lemma logKey_env w w' : same_env w w' -> logKey w' = logKey w.
Proof. intros H. unfold logKey. now rewrite (same_env_repoDir _ _ H). Qed.

Lemma objectKey_env w w' hash : same_env w w' -> objectKey w' hash = objectKey w hash.
Proof. intros H. unfold objectKey. now rewrite (same_env_repoDir _ _ H). Qed.

Lemma yoKey_env w w' : same_env w w' -> yoKey w' = yoKey w.
Proof. intros H. unfold yoKey. now rewrite (same_env_repoDir _ _ H). Qed.

Lemma objectsKey_env w w' : same_env w w' -> objectsKey w' = objectsKey w.
Proof. intros H. unfold objectsKey. now rewrite (same_env_repoDir _ _ H). Qed.

Lemma logsKey_env w w' : same_env w w' -> logsKey w' = logsKey w.
Proof. intros H. unfold logsKey. now rewrite (same_env_repoDir _ _ H). Qed.

#[export] Hint Resolve same_env_with_files same_env_tick same_env_commit : env.

(** Rewrites the places of a later world into those of [w]. *)
Ltac place_of w key key_env :=
  match goal with
  | |- context [key ?w'] =>
      lazymatch w' with
      | w => fail
      | _ => rewrite (key_env w w') by auto with env
      end
  end.

Ltac places_of w :=
  repeat first
    [ place_of w stagingKey stagingKey_env
    | place_of w logKey logKey_env
    | place_of w yoKey yoKey_env
    | place_of w objectsKey objectsKey_env
    | place_of w logsKey logsKey_env
    | match goal with
      | |- context [objectKey ?w' ?h] =>
          lazymatch w' with
          | w => fail
          | _ => rewrite (objectKey_env w w' h) by auto with env
          end
      end ].

(** ** After a commit *)

Lemma yoCommit_ok message w w' :
  yoCommit message w = (inr tt, w') ->
  exists s, staged w s /\ w' = with_files (tick (tick w)) (stagingCleared w message s).
Proof.
  intros Hrun. pose proof (yoCommit_outcome message w) as Hout. rewrite Hrun in Hout.
  inversion Hout as [| | | | |s Hs]; subst. now exists s.
Qed.

Lemma staged_record w s : staged w s -> stagingRecord w = Some s.
Proof. intros [_ Hs]. unfold stagingRecord. now rewrite Hs. Qed.

Lemma logAppended_object w message s :
  logAppended w message s !! objectKey w (commitDigest w message s) = Some (File s).
Proof.
  unfold logAppended, objectWritten.
  rewrite lookup_insert_ne by apply log_object_ne. apply lookup_insert_eq.
Qed.

Lemma logAppended_log w message s :
  logAppended w message s !! logKey w =
  Some (File (content_or_empty (files w) (logKey w) +:+ commitRecord w message s)).
Proof. apply lookup_insert_eq. Qed.

Lemma logAppended_staging w message s :
  staged w s -> logAppended w message s !! stagingKey w = Some (File s).
Proof.
  intros [_ Hs]. unfold logAppended, objectWritten.
  now rewrite !lookup_insert_ne by (apply log_staging_ne || apply object_staging_ne).
Qed.

Lemma stagingCleared_object w message s :
  stagingCleared w message s !! objectKey w (commitDigest w message s) = Some (File s).
Proof.
  unfold stagingCleared.
  rewrite lookup_delete_ne by apply not_eq_sym, object_staging_ne.
  apply logAppended_object.
Qed.

Lemma stagingCleared_log w message s :
  stagingCleared w message s !! logKey w =
  Some (File (content_or_empty (files w) (logKey w) +:+ commitRecord w message s)).
Proof.
  unfold stagingCleared.
  rewrite lookup_delete_ne by apply not_eq_sym, log_staging_ne.
  apply logAppended_log.
Qed.



(** ** When a commit fails *)



Lemma staged_read w s : staged w s -> read_at (stagingKey w) w = (inr s, w).
Proof.
  intros [Hf Hs]. unfold read_at. rewrite Hf.
  unfold stagingKey at 1. rewrite node_at_sub. fold (stagingKey w). now rewrite Hs.
Qed.



(** ** SHA-1 has collisions *)













(** ** A commit on a sound repository *)

Lemma logs_object_ne w hash : logsKey w <> objectKey w hash.
Proof. unfold logsKey, objectKey. intros H%app_inv_head. discriminate. Qed.

Lemma parent_objectKey w hash : parent (objectKey w hash) = objectsKey w.
Proof. unfold objectKey, objectsKey. now rewrite parent_sub. Qed.

Lemma parent_logKey w : parent (logKey w) = logsKey w.
Proof. unfold logKey, logsKey. now rewrite parent_sub. Qed.

Lemma node_at_objectKey m w hash : node_at m (objectKey w hash) = m !! objectKey w hash.
Proof. apply node_at_sub. Qed.


Lemma node_at_objectsKey m w : node_at m (objectsKey w) = m !! objectsKey w.
Proof. apply node_at_sub. Qed.

Lemma node_at_logsKey m w : node_at m (logsKey w) = m !! logsKey w.
Proof. apply node_at_sub. Qed.

Lemma node_at_yoKey m w : node_at m (yoKey w) = m !! yoKey w.
Proof. unfold yoKey. apply node_at_sub. Qed.





(** ** Bootstrap *)

(** Solves the goal that two places of the repository differ. *)
Ltac key_ne :=
  unfold yoKey, objectsKey, logsKey, stagingKey, logKey, objectKey;
  let H := fresh in
  intros H; apply app_inv_head in H; discriminate H.

Lemma yoInit_guard w :
  faulty w SysGetwd = false ->
  is_Some (files w !! yoKey w) ->
  yoInit w = (inl (Errorf ".yo directory already exists" None), w).
Proof.
  intros Hwd [n Hn]. rewrite yoInit_at. unfold init_at.
  rewrite bind_check_Getwd, Hwd. unfold bind, attempt, stat_at.
  rewrite node_at_yoKey, Hn.
  now destruct (faulty w (SysStat (yoKey w))).
Qed.

Lemma mkdir_all_from_existing rest2 rest1 base w :
  (forall q, q `prefix_of` rest1 -> node_at (files w) (base ++ q) = Some Dir) ->
  mkdir_all_from base (rest1 ++ rest2) w = mkdir_all_from (base ++ rest1) rest2 w.
Proof.
  revert base. induction rest1 as [|c rest1 IH]; intros base Hq.
  - now rewrite app_nil_r.
  - cbn [app mkdir_all_from].
    rewrite (Hq [c]) by (exists rest1; reflexivity).
    rewrite IH.
    + now rewrite <- app_assoc.
    + intros q [k ->]. rewrite <- app_assoc. apply Hq. exists k. reflexivity.
Qed.

Lemma parent_snoc base c : parent (base ++ [c]) = base.
Proof. unfold parent. apply removelast_last. Qed.

Lemma mkdir_at_new base c w :
  faulty w (SysMkdir (base ++ [c])) = false ->
  files w !! (base ++ [c]) = None ->
  node_at (files w) base = Some Dir ->
  mkdir_at (base ++ [c]) w = (inr tt, with_files w (<[base ++ [c] := Dir]> (files w))).
Proof.
  intros Hf Hnew Hbase. unfold mkdir_at.
  now rewrite Hf, node_at_sub, Hnew, parent_snoc, Hbase.
Qed.

Lemma cwd_exists_keep w m :
  cwd_exists w ->
  (forall q, (length q <= length (repoDir w))%nat -> m !! q = files w !! q) ->
  forall q, q `prefix_of` repoDir w -> node_at m q = Some Dir.
Proof.
  intros Hcwd Hm q Hq. specialize (Hcwd q Hq).
  destruct q as [|c q]; [reflexivity|].
  cbn [node_at] in *. rewrite Hm; [exact Hcwd|].
  destruct Hq as [k ->]. rewrite length_app. lia.
Qed.

Lemma objectsKey_yo w : objectsKey w = yoKey w ++ ["objects"].
Proof. unfold yoKey, objectsKey. now rewrite <- app_assoc. Qed.

Lemma logsKey_yo w : logsKey w = yoKey w ++ ["logs"].
Proof. unfold yoKey, logsKey. now rewrite <- app_assoc. Qed.

Lemma shorter_ne (q k : Path) : (length q < length k)%nat -> k <> q.
Proof. intros Hlen ->. lia. Qed.

Lemma yoKey_length w : length (yoKey w) = S (length (repoDir w)).
Proof. unfold yoKey. rewrite length_app. simpl. lia. Qed.

Lemma objectsKey_length w : length (objectsKey w) = S (S (length (repoDir w))).
Proof. unfold objectsKey. rewrite length_app. simpl. lia. Qed.

Lemma yoInit_fresh w :
  reliable w -> cwd_exists w -> no_repository w ->
  yoInit w = (inr tt, with_files w (initialized w)).
Proof.
  intros Hrel Hcwd Hnone.
  assert (Hyo : files w !! yoKey w = None)
    by (rewrite <- (app_nil_r (yoKey w)); apply Hnone).
  assert (Hobjs : files w !! objectsKey w = None)
    by (rewrite objectsKey_yo; apply Hnone).
  assert (Hlogs : files w !! logsKey w = None)
    by (rewrite logsKey_yo; apply Hnone).
  assert (Hroot : node_at (files w) (repoDir w) = Some Dir) by (apply Hcwd; reflexivity).
  rewrite yoInit_at. unfold init_at.
  rewrite bind_check_Getwd, Hrel. unfold bind at 1, attempt, stat_at.
  rewrite Hrel, node_at_yoKey, Hyo. cbn [fst snd err_of IsNotExist negb].
  unfold bind, check.
  (* .yo and .yo/objects *)
  unfold objectsKey at 1.
  rewrite (mkdir_all_from_existing [".yo"; "objects"] (repoDir w) [] w) by exact Hcwd.
  cbn [app mkdir_all_from]. fold (yoKey w).
  rewrite node_at_yoKey, Hyo. unfold bind.
  unfold yoKey at 1. rewrite mkdir_at_new by (apply Hrel || assumption).
  fold (yoKey w). rewrite <- objectsKey_yo.
  cbn [files with_files]. rewrite node_at_objectsKey.
  rewrite lookup_insert_ne by key_ne. rewrite Hobjs.
  assert (Hmk2 : mkdir_at (objectsKey w) (with_files w (<[yoKey w:=Dir]> (files w))) =
                 (inr tt, with_files w (<[objectsKey w := Dir]> (<[yoKey w:=Dir]> (files w))))).
  { rewrite objectsKey_yo. rewrite mkdir_at_new; [reflexivity|apply Hrel| |].
    - cbn [files with_files]. rewrite <- objectsKey_yo.
      rewrite lookup_insert_ne by key_ne. exact Hobjs.
    - cbn [files with_files]. rewrite node_at_yoKey. apply lookup_insert_eq. }
  rewrite Hmk2. unfold ret.
  (* .yo/logs *)
  set (m2 := <[objectsKey w := Dir]> (<[yoKey w := Dir]> (files w))).
  unfold logsKey at 1.
  rewrite (mkdir_all_from_existing [".yo"; "logs"] (repoDir w) [] (with_files w m2)).
  2:{ apply (cwd_exists_keep w m2 Hcwd). intros q Hlen. unfold m2.
      rewrite !lookup_insert_ne; [reflexivity| |]; apply shorter_ne;
        rewrite ?yoKey_length, ?objectsKey_length; lia. }
  cbn [app mkdir_all_from]. fold (yoKey w). cbn [files with_files].
  rewrite node_at_yoKey. unfold m2 at 1.
  rewrite lookup_insert_ne by key_ne. rewrite lookup_insert_eq.
  rewrite <- logsKey_yo.
  rewrite node_at_logsKey. unfold m2 at 1.
  rewrite !lookup_insert_ne by key_ne. rewrite Hlogs. unfold bind.
  assert (Hmk3 : mkdir_at (logsKey w) (with_files w m2) =
                 (inr tt, with_files w (<[logsKey w := Dir]> m2))).
  { rewrite logsKey_yo. rewrite mkdir_at_new; [reflexivity|apply Hrel| |].
    - cbn [files with_files]. rewrite <- logsKey_yo. unfold m2.
      rewrite !lookup_insert_ne by key_ne. exact Hlogs.
    - cbn [files with_files]. rewrite node_at_yoKey. unfold m2.
      rewrite lookup_insert_ne by key_ne. apply lookup_insert_eq. }
  rewrite Hmk3. reflexivity.
Qed.

Lemma initialized_elsewhere w k :
  k <> yoKey w -> k <> objectsKey w -> k <> logsKey w ->
  initialized w !! k = files w !! k.
Proof.
  intros H1 H2 H3. unfold initialized.
  now rewrite !lookup_insert_ne by (apply not_eq_sym; assumption).
Qed.

Lemma initialized_below w rest :
  no_repository w ->
  rest <> [] -> rest <> ["objects"] -> rest <> ["logs"] ->
  initialized w !! (yoKey w ++ rest) = None.
Proof.
  intros Hnone H0 H1 H2. rewrite initialized_elsewhere; [apply Hnone| | |].
  - intros H. rewrite <- (app_nil_r (yoKey w)) in H at 2. now apply app_inv_head in H.
  - rewrite objectsKey_yo. now intros H%app_inv_head.
  - rewrite logsKey_yo. now intros H%app_inv_head.
Qed.

Lemma home_world_reliable : reliable home_world.
Proof. intros call. reflexivity. Qed.

Lemma home_world_cwd_exists : cwd_exists home_world.
Proof.
  intros q [k Hk]. change (repoDir home_world) with ["home"] in Hk.
  destruct q as [|c [|c' q]]; [reflexivity| |discriminate].
  injection Hk as <- _. reflexivity.
Qed.

Lemma home_world_no_repository : no_repository home_world.
Proof.
  intros rest. change (yoKey home_world) with ["home"; ".yo"].
  cbn [files home_world app].
  rewrite lookup_insert_ne by discriminate.
  now rewrite lookup_singleton_ne by discriminate.
Qed.

(** ** Histories *)










Lemma objectKey_yo w hash : objectKey w hash = yoKey w ++ ["objects"; hash].
Proof. unfold yoKey, objectKey. now rewrite <- app_assoc. Qed.

Lemma stagingKey_yo w : stagingKey w = yoKey w ++ ["staging"].
Proof. unfold yoKey, stagingKey. now rewrite <- app_assoc. Qed.

Lemma logKey_yo w : logKey w = yoKey w ++ ["logs"; "commits"].
Proof. unfold yoKey, logKey. now rewrite <- app_assoc. Qed.


(** * The properties of the design document *)

(** C1 (determinism of the object store).  For every byte sequence [b], the
    digest under which staging stores [b] is a function of [b] alone: it is
    [hashObject b], the hexadecimal encoding of the SHA-1 of the bytes of
    [b], forty characters long, each a digit or a lower-case letter from
    [a] to [f].  Whatever the world a file holding [b] is staged in, [b] is
    stored verbatim under that name in the object collection, and the entry
    appended to the staging record carries the same digest. *)
Theorem C1_put_digest (b : string) :
  hashObject b = Hex.EncodeToString (Sha1.Sum (bytes_of b)) /\
  String.length (hashObject b) = 40%nat /\
  string_forallb lower_hex (hashObject b) = true /\
  forall (w : World) (file : string) (w' : World),
    ReadFile file w = (inr b, w) ->
    yoAdd file w = (inr tt, w') ->
    files w' !! objectKey w' (hashObject b) = Some (File b) /\
    stagingRecord w' =
      Some (content_or_empty (files w) (stagingKey w) +:+ stagingEntry (hashObject b) file).
Proof.
  split; [reflexivity|].
  split; [apply hashObject_length|].
  split; [apply hashObject_lower_hex|].
  intros w file w' Hread Hadd.
  pose proof (yoAdd_outcome file w) as Hout. rewrite Hadd in Hout.
  inversion Hout as [| | | |content Hread']; subst.
  unfold ReadFile, at_path in Hread. rewrite Hread in Hread'.
  injection Hread' as <-.
  unfold stagingRecord.
  change (objectKey (with_files w _) (hashObject b)) with (objectKey w (hashObject b)).
  change (stagingKey (with_files w _)) with (stagingKey w).
  cbn [files with_files]. unfold stagingAppended, objectStored.
  rewrite lookup_insert_ne by (apply not_eq_sym, object_staging_ne).
  now rewrite !lookup_insert_eq.
Qed.

Lemma C1_put_digest_witness :
  hashObject "hello" = "aaf4c61ddcc5e8a2dabede0f3b482cd9aea9434d" /\
  files staged_world !! objectKey staged_world (hashObject "hello") = Some (File "hello") /\
  stagingRecord staged_world =
    Some (content_or_empty (files repo_world) (stagingKey repo_world) +:+
          stagingEntry (hashObject "hello") "a.txt").
Proof.
  split; [evaluated|].
  apply (proj2 (proj2 (proj2 (C1_put_digest "hello"))) repo_world "a.txt" staged_world);
    [evaluated | exact sample_add].
Defined.

(** C2 (what the commit digest is).  A commit reads the staging record,
    then reads the clock, and hashes
    [stagingBytes ++ message ++ currentTimestamp], where
    [currentTimestamp] is that one reading of the clock, the first the
    commit takes: the commit object is stored under the digest, and the log
    record names it.  The time the log record shows is the next reading,
    and a commit takes no other; when the staging record cannot be read, the
    clock is not read at all. *)
Theorem C2_commit_digest (w : World) (message : string) (w' : World) :
  (yoCommit message w = (inr tt, w') ->
   exists stagingBytes,
     stagingRecord w = Some stagingBytes /\
     let currentTimestamp := time_String (clock w (ticks w)) in
     let digest := hashObject (stagingBytes +:+ message +:+ currentTimestamp) in
     files w' !! objectKey w' digest = Some (File stagingBytes) /\
     historyLog w' =
       Some (content_or_empty (files w) (logKey w) +:+
             logEntry digest message (time_RFC1123 (clock w (S (ticks w))))) /\
     ticks w' = S (S (ticks w))) /\
  (forall cause,
     yoCommit message w = (inl (Errorf "failed to read staging area: %w" cause), w') ->
     ticks w' = ticks w).
Proof.
  split.
  - intros Hrun. destruct (yoCommit_ok _ _ _ Hrun) as (s & Hs & ->).
    exists s. split; [now apply staged_record|]. cbv zeta.
    unfold historyLog. places_of w.
    cbn [files with_files ticks tick].
    fold (commitHash s message (clock w (ticks w))).
    fold (commitDigest w message s). fold (commitRecord w message s).
    split; [apply stagingCleared_object|].
    split; [|reflexivity].
    now rewrite stagingCleared_log.
  - intros cause Hrun.
    pose proof (yoCommit_outcome message w) as Hout. rewrite Hrun in Hout.
    inversion Hout; subst; reflexivity.
Qed.

Lemma C2_commit_digest_witness :
  exists stagingBytes,
    stagingRecord staged_world = Some stagingBytes /\
    let currentTimestamp := time_String (clock staged_world (ticks staged_world)) in
    let digest := hashObject (stagingBytes +:+ "first" +:+ currentTimestamp) in
    files committed_world !! objectKey committed_world digest = Some (File stagingBytes) /\
    historyLog committed_world =
      Some (content_or_empty (files staged_world) (logKey staged_world) +:+
            logEntry digest "first"
              (time_RFC1123 (clock staged_world (S (ticks staged_world))))) /\
    ticks committed_world = S (S (ticks staged_world)).
Proof.
  exact (proj1 (C2_commit_digest staged_world "first" committed_world) sample_commit).
Defined.











(** C7 (the guard of [initialize]).  Where [.yo] already exists,
    [initialize] fails and leaves every file and directory as it was; the
    error says that [.yo] exists (unless the working directory itself
    cannot be told).  Where nothing is at [.yo] or below it, the working
    directory exists and the storage refuses nothing, [initialize]
    succeeds: it makes [.yo], [.yo/objects] and [.yo/logs], both empty, and
    touches nothing else. *)
Theorem C7_init_guard (w : World) :
  (is_Some (files w !! yoKey w) ->
   (exists e, yoInit w = (inl e, w)) /\
   (faulty w SysGetwd = false ->
    yoInit w = (inl (Errorf ".yo directory already exists" None), w))) /\
  (reliable w -> cwd_exists w -> no_repository w ->
   yoInit w = (inr tt, with_files w (initialized w)) /\
   initialized w !! objectsKey w = Some Dir /\
   initialized w !! logsKey w = Some Dir /\
   (forall name rest, initialized w !! (objectsKey w ++ name :: rest) = None) /\
   (forall name rest, initialized w !! (logsKey w ++ name :: rest) = None) /\
   (forall k, k <> yoKey w -> k <> objectsKey w -> k <> logsKey w ->
              initialized w !! k = files w !! k)).
Proof.
  split.
  { intros Hyo. split; [|intros Hwd; now apply yoInit_guard].
    destruct (faulty w SysGetwd) eqn:Hwd.
    - eexists. rewrite yoInit_at. unfold init_at. now rewrite bind_check_Getwd, Hwd.
    - eexists. now apply yoInit_guard. }
  intros Hrel Hcwd Hnone.
  split; [now apply yoInit_fresh|].
  split; [unfold initialized; rewrite lookup_insert_ne by key_ne; apply lookup_insert_eq|].
  split; [apply lookup_insert_eq|].
  split; [|split; [|apply initialized_elsewhere]].
  - intros name rest. rewrite objectsKey_yo, <- app_assoc.
    apply initialized_below; [exact Hnone| | |]; discriminate.
  - intros name rest. rewrite logsKey_yo, <- app_assoc.
    apply initialized_below; [exact Hnone| | |]; discriminate.
Qed.

Lemma C7_init_guard_witness :
  yoInit repo_world = (inl (Errorf ".yo directory already exists" None), repo_world) /\
  yoInit home_world = (inr tt, with_files home_world (initialized home_world)) /\
  initialized home_world = repo_files.
Proof.
  split; [|split].
  - apply (proj1 (C7_init_guard repo_world)); [|reflexivity].
    exists Dir. evaluated.
  - apply (proj2 (C7_init_guard home_world)
             home_world_reliable home_world_cwd_exists home_world_no_repository).
  - evaluated.
Defined.






(** C10 (the path is written as given).  A successful [stage] of [file]
    appends to the staging record exactly
    [digest ++ " " ++ file ++ "\n"], with [file] as it was passed: nothing is
    escaped, quoted or checked.  The record grows by one line end more than
    there are line breaks in [file], so by more than one line as soon as
    [file] contains a line break. *)
Theorem C10_path_verbatim (w : World) (file : string) (w' : World) :
  yoAdd file w = (inr tt, w') ->
  exists content,
    ReadFile file w = (inr content, w) /\
    let old := content_or_empty (files w) (stagingKey w) in
    let new := old +:+ (hashObject content +:+ " " +:+ file +:+ newline) in
    stagingRecord w' = Some new /\
    line_count new = (line_count old + 1 + count_char LF file)%nat /\
    (occurs LF file = true -> (line_count old + 1 < line_count new)%nat).
Proof.
  intros Hadd.
  pose proof (yoAdd_outcome file w) as Hout. rewrite Hadd in Hout.
  inversion Hout as [| | | |content Hread]; subst.
  exists content. split; [exact Hread|]. cbv zeta.
  assert (Hcount : line_count (content_or_empty (files w) (stagingKey w) +:+
                               (hashObject content +:+ " " +:+ file +:+ newline)) =
                   (line_count (content_or_empty (files w) (stagingKey w)) + 1 +
                    count_char LF file)%nat).
  { unfold line_count at 1. rewrite count_char_app.
    fold (stagingEntry (hashObject content) file).
    fold (line_count (stagingEntry (hashObject content) file)).
    rewrite line_count_entry by apply hashObject_no_newline.
    unfold line_count. lia. }
  split; [|split; [exact Hcount|]].
  - unfold stagingRecord.
    change (stagingKey (with_files w _)) with (stagingKey w).
    cbn [files with_files]. unfold stagingAppended.
    now rewrite lookup_insert_eq.
  - intros Hlf%count_char_occurs. rewrite Hcount. lia.
Qed.

Lemma C10_path_verbatim_witness :
  occurs LF odd_name = true /\
  exists content,
    ReadFile odd_name odd_world = (inr content, odd_world) /\
    let old := content_or_empty (files odd_world) (stagingKey odd_world) in
    let new := old +:+ (hashObject content +:+ " " +:+ odd_name +:+ newline) in
    stagingRecord odd_staged_world = Some new /\
    line_count new = (line_count old + 1 + count_char LF odd_name)%nat /\
    (occurs LF odd_name = true -> (line_count old + 1 < line_count new)%nat).
Proof.
  split; [reflexivity|].
  exact (C10_path_verbatim odd_world odd_name odd_staged_world sample_add_odd).
Defined.

(** * More facts about the model *)

(** ** When an operation goes through *)

Lemma write_at_iff data k w w' :
  write_at data k w = (inr tt, w') <->
  faulty w (SysCreate k) = false /\ writable (files w) k = true /\
  w' = with_files w (<[k := File data]> (files w)).
Proof.
  unfold write_at, create_at, writable.
  destruct (faulty w (SysCreate k)); [split; [discriminate | intros (H & _); discriminate H]|].
  destruct (node_at (files w) k) as [[c|]|].
  - split; [intros H; injection H as <-; now repeat split | intros (_ & _ & ->); reflexivity].
  - split; [discriminate | intros (_ & H & _); discriminate H].
  - destruct (node_at (files w) (parent k)) as [[c|]|].
    + split; [discriminate | intros (_ & H & _); discriminate H].
    + split; [intros H; injection H as <-; now repeat split | intros (_ & _ & ->); reflexivity].
    + split; [discriminate | intros (_ & H & _); discriminate H].
Qed.

Lemma open_append_at_iff base c rest w f w' :
  let k := base ++ c :: rest in
  open_append_at k w = (inr f, w') <->
  faulty w (SysOpen k) = false /\ writable (files w) k = true /\ f = k /\
  w' = with_files w (<[k := File (content_or_empty (files w) k)]> (files w)).
Proof.
  cbv zeta. unfold open_append_at, bind, ret, create_at, writable, content_or_empty.
  rewrite node_at_sub.
  destruct (faulty w (SysOpen _)); [split; [discriminate | intros (H & _); discriminate H]|].
  destruct (files w !! (base ++ c :: rest)) as [[old|]|] eqn:Hk.
  - rewrite insert_id by exact Hk. rewrite with_files_id.
    split; [intros H; injection H as <- <-; now repeat split
           | intros (_ & _ & -> & ->); reflexivity].
  - split; [discriminate | intros (_ & H & _); discriminate H].
  - destruct (node_at (files w) (parent _)) as [[old|]|].
    + split; [discriminate | intros (_ & H & _); discriminate H].
    + split; [intros H; injection H as <- <-; now repeat split
             | intros (_ & _ & -> & ->); reflexivity].
    + split; [discriminate | intros (_ & H & _); discriminate H].
Qed.

Lemma WriteString_iff base c rest s w w' :
  let f := base ++ c :: rest in
  WriteString f s w = (inr tt, w') <->
  faulty w (SysWrite f) = false /\
  exists content, files w !! f = Some (File content) /\
    w' = with_files w (<[f := File (content +:+ s)]> (files w)).
Proof.
  cbv zeta. unfold WriteString. rewrite node_at_sub.
  destruct (faulty w (SysWrite _)); [split; [discriminate | intros (H & _); discriminate H]|].
  destruct (files w !! (base ++ c :: rest)) as [[content|]|].
  - split.
    + intros H. injection H as <-. split; [reflexivity|]. now exists content.
    + intros (_ & content' & H & ->). now injection H as <-.
  - split; [discriminate | intros (_ & content' & H & _); discriminate H].
  - split; [discriminate | intros (_ & content' & H & _); discriminate H].
Qed.

Lemma parent_stagingKey w : parent (stagingKey w) = yoKey w.
Proof. unfold stagingKey, yoKey. now rewrite parent_sub. Qed.

Lemma node_at_stagingKey m w : node_at m (stagingKey w) = m !! stagingKey w.
Proof. apply node_at_sub. Qed.

Lemma writable_insert_ne m k q n :
  q <> k -> q <> parent k -> writable (<[q := n]> m) k = writable m k.
Proof.
  intros H1 H2. unfold writable.
  assert (Hn : forall p, q <> p -> node_at (<[q := n]> m) p = node_at m p).
  { intros [|c p] Hp; [reflexivity|]. cbn [node_at]. now rewrite lookup_insert_ne. }
  now rewrite !Hn by assumption.
Qed.

Lemma yo_object_ne w hash : objectKey w hash <> yoKey w.
Proof.
  unfold objectKey, yoKey. intros H%app_inv_head. discriminate.
Qed.

(** When staging a file succeeds. *)
Lemma yoAdd_succeeds file w w' :
  yoAdd file w = (inr tt, w') <->
  exists content,
    read_at (resolve w file) w = (inr content, w) /\
    faulty w (SysCreate (objectKey w (hashObject content))) = false /\
    writable (files w) (objectKey w (hashObject content)) = true /\
    faulty w (SysOpen (stagingKey w)) = false /\
    writable (files w) (stagingKey w) = true /\
    faulty w (SysWrite (stagingKey w)) = false /\
    w' = with_files w (stagingAppended w file content).
Proof.
  rewrite yoAdd_at. unfold add_at, bind, check.
  assert (Hst : forall content,
            writable (objectStored w content) (stagingKey w) = writable (files w) (stagingKey w)).
  { intros content. unfold objectStored. apply writable_insert_ne.
    - apply object_staging_ne.
    - rewrite parent_stagingKey. apply yo_object_ne. }
  split.
  - destruct (read_at (resolve w file) w) as [[e|content] w1] eqn:Hread; [discriminate|].
    pose proof (read_at_inr _ _ _ _ Hread) as (-> & _ & _).
    destruct (write_at content _ w) as [[e|[]] w2] eqn:Hwrite; [discriminate|].
    apply write_at_iff in Hwrite as (Hf1 & Hw1 & ->).
    fold (objectStored w content). unfold stagingKey at 1.
    destruct (open_append_at _ _) as [[e|f] w3] eqn:Hopen; [discriminate|].
    apply open_append_at_iff in Hopen as (Hf2 & Hw2 & -> & ->).
    fold (stagingKey w) in *. cbn [files with_files faulty] in *.
    rewrite Hst in Hw2.
    rewrite with_files_with_files. unfold objectStored at 1.
    rewrite content_or_empty_insert_ne by apply object_staging_ne.
    fold (objectStored w content). fold (stagingOpened w content).
    unfold stagingKey at 1.
    destruct (WriteString _ _ _) as [[e|[]] w4] eqn:Hws; [discriminate|].
    apply WriteString_iff in Hws as (Hf3 & old & Hold & ->).
    fold (stagingKey w) in *. cbn [files with_files faulty] in *.
    unfold stagingOpened in Hold at 1. rewrite lookup_insert_eq in Hold.
    injection Hold as <-.
    rewrite with_files_with_files. unfold stagingOpened. rewrite insert_insert_eq.
    fold (stagingAppended w file content).
    intros H. injection H as <-. exists content. now repeat split.
  - intros (content & Hread & Hf1 & Hw1 & Hf2 & Hw2 & Hf3 & ->).
    rewrite Hread.
    rewrite (proj2 (write_at_iff content _ w _) (conj Hf1 (conj Hw1 eq_refl))).
    fold (objectStored w content). unfold stagingKey at 1.
    rewrite (proj2 (open_append_at_iff (repoDir w) ".yo" ["staging"]
                      (with_files w (objectStored w content)) _ _)
               (conj Hf2 (conj (eq_trans (Hst content) Hw2) (conj eq_refl eq_refl)))).
    fold (stagingKey w). cbn [files with_files].
    unfold objectStored at 2.
    rewrite content_or_empty_insert_ne by apply object_staging_ne.
    fold (objectStored w content). fold (stagingOpened w content).
    rewrite with_files_with_files.
    unfold stagingKey at 1.
    rewrite (proj2 (WriteString_iff (repoDir w) ".yo" ["staging"] _
                      (with_files w (stagingOpened w content)) _)
               (conj Hf3 (ex_intro _ (content_or_empty (files w) (stagingKey w))
                                     (conj (lookup_insert_eq _ _ _) eq_refl)))).
    fold (stagingKey w). cbn [files with_files].
    unfold stagingOpened. now rewrite insert_insert_eq.
Qed.

Lemma staged_iff w s : read_at (stagingKey w) w = (inr s, w) <-> staged w s.
Proof.
  split; [|apply staged_read].
  intros H. apply read_at_inr in H as (_ & Hf & Hs).
  rewrite node_at_stagingKey in Hs. now split.
Qed.

(** When a commit succeeds. *)
Lemma yoCommit_succeeds message w w' :
  yoCommit message w = (inr tt, w') <->
  exists s,
    staged w s /\
    faulty w (SysCreate (objectKey w (commitDigest w message s))) = false /\
    writable (files w) (objectKey w (commitDigest w message s)) = true /\
    faulty w (SysOpen (logKey w)) = false /\
    writable (files w) (logKey w) = true /\
    faulty w (SysWrite (logKey w)) = false /\
    faulty w (SysRemove (stagingKey w)) = false /\
    w' = with_files (tick (tick w)) (stagingCleared w message s).
Proof.
  rewrite yoCommit_at. unfold commit_at, bind, check.
  assert (Hlg : forall s,
            writable (objectWritten w message s) (logKey w) = writable (files w) (logKey w)).
  { intros s. unfold objectWritten. apply writable_insert_ne.
    - apply not_eq_sym, log_object_ne.
    - rewrite parent_logKey. apply not_eq_sym, logs_object_ne. }
  assert (Hco : forall s,
            content_or_empty (objectWritten w message s) (logKey w) =
            content_or_empty (files w) (logKey w)).
  { intros s. apply content_or_empty_insert_ne, not_eq_sym, log_object_ne. }
  split.
  - destruct (read_at (stagingKey w) w) as [[e|s] w1] eqn:Hread; [discriminate|].
    pose proof (read_at_inr _ _ _ _ Hread) as (-> & _ & _).
    apply staged_iff in Hread. pose proof Hread as [_ Hs].
    unfold Now at 1. fold (commitDigest w message s).
    destruct (write_at s _ (tick w)) as [[e|[]] w2] eqn:Hwrite; [discriminate|].
    apply write_at_iff in Hwrite as (Hf1 & Hw1 & ->).
    cbn [faulty files tick] in Hf1, Hw1.
    unfold Now at 1. rewrite tick_with_files, files_tick. unfold logKey at 1.
    destruct (open_append_at _ _) as [[e|f] w3] eqn:Hopen; [discriminate|].
    apply open_append_at_iff in Hopen as (Hf2 & Hw2 & -> & ->).
    fold (logKey w) in *. cbn [files with_files faulty tick] in *.
    fold (objectWritten w message s) in *. rewrite Hlg in Hw2.
    rewrite with_files_with_files, Hco. fold (logOpened w message s).
    set (entry := logEntry _ _ _).
    assert (Hentry : entry = commitRecord w message s) by reflexivity.
    clearbody entry. subst entry.
    unfold logKey at 1.
    destruct (WriteString _ _ _) as [[e|[]] w4] eqn:Hws; [discriminate|].
    apply WriteString_iff in Hws as (Hf3 & old & Hold & ->).
    fold (logKey w) in *. cbn [files with_files faulty tick] in *.
    unfold logOpened in Hold at 1. rewrite lookup_insert_eq in Hold.
    injection Hold as <-.
    rewrite with_files_with_files. unfold logOpened. rewrite insert_insert_eq.
    fold (logAppended w message s).
    erewrite (remove_at_file (stagingKey w) (with_files _ _))
      by (cbn [files with_files]; now apply logAppended_staging).
    cbn [faulty with_files tick files].
    destruct (faulty w (SysRemove (stagingKey w))) eqn:Hrm; [discriminate|].
    intros H. injection H as <-. exists s. split; [exact Hread|]. now repeat split.
  - intros (s & Hst & Hf1 & Hw1 & Hf2 & Hw2 & Hf3 & Hf4 & ->).
    rewrite (staged_read _ _ Hst).
    unfold Now at 1. fold (commitDigest w message s).
    rewrite (proj2 (write_at_iff s _ (tick w) _) (conj Hf1 (conj Hw1 eq_refl))).
    unfold Now at 1. rewrite tick_with_files, files_tick.
    fold (objectWritten w message s). unfold logKey at 1.
    rewrite (proj2 (open_append_at_iff (repoDir w) ".yo" ["logs"; "commits"]
                      (with_files (tick (tick w)) (objectWritten w message s)) _ _)
               (conj Hf2 (conj (eq_trans (Hlg s) Hw2) (conj eq_refl eq_refl)))).
    fold (logKey w). cbn [files with_files].
    rewrite Hco. fold (logOpened w message s).
    rewrite with_files_with_files.
    set (entry := logEntry _ _ _).
    assert (Hentry : entry = commitRecord w message s) by reflexivity.
    clearbody entry. subst entry.
    unfold logKey at 1.
    rewrite (proj2 (WriteString_iff (repoDir w) ".yo" ["logs"; "commits"] _
                      (with_files (tick (tick w)) (logOpened w message s)) _)
               (conj Hf3 (ex_intro _ (content_or_empty (files w) (logKey w))
                                     (conj (lookup_insert_eq _ _ _) eq_refl)))).
    fold (logKey w). cbn [files with_files].
    rewrite with_files_with_files.
    unfold logOpened. rewrite insert_insert_eq. fold (logAppended w message s).
    erewrite (remove_at_file (stagingKey w) (with_files _ _))
      by (cbn [files with_files]; now apply logAppended_staging).
    cbn [faulty with_files tick files]. now rewrite Hf4.
Qed.

(** ** What an operation touches *)

Lemma mkdir_at_grows k w r w' q :
  mkdir_at k w = (r, w') ->
  files w' !! q = files w !! q \/
  (files w !! q = None /\ files w' !! q = Some Dir /\ q = k).
Proof.
  unfold mkdir_at. intros H.
  destruct (faulty w (SysMkdir k)); [injection H as _ <-; now left|].
  destruct (node_at (files w) k) as [n|] eqn:Hk; [injection H as _ <-; now left|].
  destruct (node_at (files w) (parent k)) as [[c|]|];
    try (injection H as _ <-; now left).
  injection H as _ <-. cbn [files with_files].
  destruct (decide (q = k)) as [->|Hne].
  - right. rewrite lookup_insert_eq. destruct k; [discriminate Hk|]. now repeat split.
  - left. now rewrite lookup_insert_ne by (apply not_eq_sym, Hne).
Qed.

Lemma mkdir_all_from_grows rest base w r w' q :
  mkdir_all_from base rest w = (r, w') ->
  files w' !! q = files w !! q \/
  (files w !! q = None /\ files w' !! q = Some Dir /\
   exists p, p `prefix_of` rest /\ q = base ++ p).
Proof.
  revert base w. induction rest as [|c rest IH]; intros base w H.
  - injection H as _ <-. now left.
  - cbn [mkdir_all_from] in H.
    assert (Hsub : forall p, p `prefix_of` rest ->
              exists p', p' `prefix_of` c :: rest /\ (base ++ [c]) ++ p = base ++ p').
    { intros p [t ->]. exists (c :: p). split; [now exists t | now rewrite <- app_assoc]. }
    destruct (node_at (files w) (base ++ [c])) as [[content|]|] eqn:Hk.
    + injection H as _ <-. now left.
    + destruct (IH _ _ H) as [Hsame|(Hnone & Hdir & p & Hp & ->)]; [now left|].
      right. repeat split; [assumption..|]. now apply Hsub.
    + unfold bind in H.
      destruct (mkdir_at (base ++ [c]) w) as [[e|[]] w1] eqn:Hmk.
      * injection H as _ <-. destruct (mkdir_at_grows _ _ _ _ q Hmk) as [Hs|(Hn & Hd & ->)];
          [now left|].
        right. repeat split; [assumption..|].
        exists [c]. split; [now exists rest | reflexivity].
      * destruct (mkdir_at_grows _ _ _ _ q Hmk) as [Hs|(Hn & Hd & ->)];
          destruct (IH _ _ H) as [Hsame|(Hnone & Hdir & p & Hp & Hq)].
        -- left. congruence.
        -- right. rewrite <- Hs. repeat split; [assumption..|]. subst q. now apply Hsub.
        -- right. rewrite Hsame. repeat split; [assumption..|].
           exists [c]. split; [now exists rest | reflexivity].
        -- congruence.
Qed.

Lemma yoInit_grows w q :
  files (snd (yoInit w)) !! q = files w !! q \/
  (files w !! q = None /\ files (snd (yoInit w)) !! q = Some Dir /\
   (q `prefix_of` objectsKey w \/ q `prefix_of` logsKey w)).
Proof.
  destruct (yoInit w) as [r w'] eqn:Hrun. cbn [snd].
  rewrite yoInit_at in Hrun. unfold init_at in Hrun. rewrite bind_check_Getwd in Hrun.
  destruct (faulty w SysGetwd); [injection Hrun as _ <-; now left|].
  unfold bind at 1, attempt in Hrun.
  assert (Hst : snd (stat_at (yoKey w) w) = w).
  { unfold stat_at. destruct (faulty w _); [reflexivity|].
    now destruct (node_at (files w) (yoKey w)). }
  destruct (stat_at (yoKey w) w) as [r0 w0]. cbn [fst snd] in *. subst w0.
  destruct (negb (IsNotExist (err_of r0))); [injection Hrun as _ <-; now left|].
  unfold bind, check, ret in Hrun.
  destruct (mkdir_all_from [] (objectsKey w) w) as [[e|[]] w1] eqn:H1.
  - injection Hrun as _ <-.
    destruct (mkdir_all_from_grows _ _ _ _ _ q H1) as [Hs|(Hn & Hd & p & Hp & Hq)];
      [now left|]. cbn [app] in Hq. subst q. right. split; [exact Hn|]. split; [exact Hd|].
    now left.
  - assert (H2 : exists r2, mkdir_all_from [] (logsKey w) w1 = (r2, w')).
    { destruct (mkdir_all_from [] (logsKey w) w1) as [[e|[]] w2];
        injection Hrun as _ <-; eauto. }
    destruct H2 as (r2 & H2).
    destruct (mkdir_all_from_grows _ _ _ _ _ q H1) as [Hs1|(Hn1 & Hd1 & p1 & Hp1 & Hq1)];
      destruct (mkdir_all_from_grows _ _ _ _ _ q H2) as [Hs2|(Hn2 & Hd2 & p2 & Hp2 & Hq2)];
      cbn [app] in *.
    + left. congruence.
    + subst q. right. rewrite <- Hs1. split; [exact Hn2|]. split; [exact Hd2|]. now right.
    + subst q. right. rewrite Hs2. split; [exact Hn1|]. split; [exact Hd1|]. now left.
    + congruence.
Qed.

Lemma run_op_same_env op w : same_env w (run_op op w).
Proof.
  destruct op as [|file|message|]; cbn [run_op].
  - assert (H : keeps_env yoInit); [|apply H].
    unfold yoInit, Stat, MkdirAll.
    apply keeps_env_bind; [solve [auto with env]|]. intros currentDir. cbv beta zeta.
    apply keeps_env_bind; [solve [auto with env]|]. intros r.
    destruct (negb (IsNotExist (err_of r))); [auto with env|].
    repeat (apply keeps_env_bind; [solve [auto 6 with env] | intros ?]). auto with env.
  - pose proof (yoAdd_outcome file w) as Hout.
    destruct (yoAdd file w) as [r w']. inversion Hout; subst; cbn [snd]; now repeat split.
  - pose proof (yoCommit_outcome message w) as Hout.
    destruct (yoCommit message w) as [r w']. inversion Hout; subst; cbn [snd]; now repeat split.
  - rewrite yoLog_run. destruct (faulty w _); [apply same_env_refl|].
    destruct (files w !! logKey w) as [[c|]|]; apply same_env_refl.
Qed.

Lemma run_ops_same_env ops w : same_env w (run_ops ops w).
Proof.
  revert w. induction ops as [|op ops IH]; intros w; cbn [run_ops].
  - apply same_env_refl.
  - eapply same_env_trans; [apply run_op_same_env | apply IH].
Qed.

Lemma touched_insert_object (w : World) (k : Path) (m : gmap Path Node) (hash content : string) :
  touched w k (m !! k) ->
  touched w k (<[objectKey w hash := File content]> m !! k).
Proof.
  intros H. destruct (decide (k = objectKey w hash)) as [->|Hne].
  - rewrite lookup_insert_eq. now eapply ObjectWritten.
  - now rewrite lookup_insert_ne by (apply not_eq_sym, Hne).
Qed.

Lemma touched_insert_staging (w : World) (k : Path) (m : gmap Path Node) (n : Node) :
  touched w k (m !! k) ->
  touched w k (<[stagingKey w := n]> m !! k).
Proof.
  intros H. destruct (decide (k = stagingKey w)) as [->|Hne].
  - now apply StagingTouched.
  - now rewrite lookup_insert_ne by (apply not_eq_sym, Hne).
Qed.

Lemma touched_delete_staging (w : World) (k : Path) (m : gmap Path Node) :
  touched w k (m !! k) ->
  touched w k (delete (stagingKey w) m !! k).
Proof.
  intros H. destruct (decide (k = stagingKey w)) as [->|Hne].
  - now apply StagingTouched.
  - now rewrite lookup_delete_ne by (apply not_eq_sym, Hne).
Qed.

Lemma touched_insert_log (w : World) (k : Path) (m : gmap Path Node) (more : string) :
  touched w k (m !! k) ->
  touched w k (<[logKey w := File (content_or_empty (files w) (logKey w) +:+ more)]> m !! k).
Proof.
  intros H. destruct (decide (k = logKey w)) as [->|Hne].
  - rewrite lookup_insert_eq. now eapply LogAppended.
  - now rewrite lookup_insert_ne by (apply not_eq_sym, Hne).
Qed.

Lemma run_op_touched op w k : touched w k (files (run_op op w) !! k).
Proof.
  assert (H0 : touched w k (files w !! k)) by now apply Untouched.
  destruct op as [|file|message|]; cbn [run_op].
  - destruct (yoInit_grows w k) as [Hs|(Hn & Hd & Hp)].
    + now apply Untouched.
    + now apply DirectoryMade.
  - pose proof (yoAdd_outcome file w) as Hout.
    destruct (yoAdd file w) as [r w']. inversion Hout; subst; cbn [snd files with_files];
      try exact H0.
    + now apply touched_insert_object.
    + now apply touched_insert_staging, touched_insert_object.
    + now apply touched_insert_staging, touched_insert_object.
  - pose proof (yoCommit_outcome message w) as Hout.
    destruct (yoCommit message w) as [r w']. inversion Hout; subst;
      cbn [snd files with_files tick]; try exact H0.
    + now apply touched_insert_object.
    + unfold logOpened.
      rewrite <- (string_app_nil_r (content_or_empty (files w) (logKey w))).
      now apply touched_insert_log, touched_insert_object.
    + now apply touched_insert_log, touched_insert_object.
    + now apply touched_delete_staging, touched_insert_log, touched_insert_object.
  - rewrite yoLog_run. destruct (faulty w _); [exact H0|].
    now destruct (files w !! logKey w) as [[c|]|].
Qed.

Lemma yo_prefix_object w hash : yoKey w `prefix_of` objectKey w hash.
Proof. exists ["objects"; hash]. apply objectKey_yo. Qed.

Lemma yo_prefix_log w : yoKey w `prefix_of` logKey w.
Proof. exists ["logs"; "commits"]. apply logKey_yo. Qed.

Lemma yo_prefix_staging w : yoKey w `prefix_of` stagingKey w.
Proof. exists ["staging"]. apply stagingKey_yo. Qed.

Lemma history_step op w content :
  historyLog w = Some content ->
  exists more, historyLog (run_op op w) = Some (content +:+ more).
Proof.
  unfold historyLog. rewrite (logKey_env w (run_op op w)) by apply run_op_same_env.
  intros H.
  destruct (files w !! logKey w) as [[c|]|] eqn:Hlog; try discriminate.
  injection H as ->.
  destruct (run_op_touched op w (logKey w))
    as [Hs|Hn _ _|hash c Hk _|more _ Hm|Hk].
  - exists EmptyString. now rewrite Hs, Hlog, string_app_nil_r.
  - congruence.
  - now apply log_object_ne in Hk.
  - exists more. rewrite Hm. unfold content_or_empty. now rewrite Hlog.
  - now apply log_staging_ne in Hk.
Qed.

Lemma kept_step op w k :
  (~ yoKey w `prefix_of` k ->
   forall n, files w !! k = Some n -> files (run_op op w) !! k = Some n) /\
  (k <> stagingKey w -> is_Some (files w !! k) -> is_Some (files (run_op op w) !! k)).
Proof.
  destruct (run_op_touched op w k) as [Hs|Hn Hd _|hash c Hk Ha|more Hk Ha|Hk].
  - rewrite Hs. split; [now intros _ n Hn | now intros _ H].
  - split; [intros _ n H; congruence | intros _ [n H]; congruence].
  - split; [|intros _ _; rewrite Ha; eauto].
    intros Hout. exfalso. apply Hout. subst k. apply yo_prefix_object.
  - split; [|intros _ _; rewrite Ha; eauto].
    intros Hout. exfalso. apply Hout. subst k. apply yo_prefix_log.
  - split; [|now intros Hne].
    intros Hout. exfalso. apply Hout. subst k. apply yo_prefix_staging.
Qed.

(** ** Before [init] *)

Lemma no_repository_add w file :
  no_repository w ->
  (exists cause, yoAdd file w = (inl (Errorf "failed to read file: %w" (Some cause)), w)) \/
  (exists content cause,
     read_at (resolve w file) w = (inr content, w) /\
     yoAdd file w = (inl (Errorf "failed to write object file: %w" (Some cause)), w)).
Proof.
  intros Hnone. rewrite yoAdd_at. unfold add_at, bind, check.
  destruct (read_at (resolve w file) w) as [[e|content] w1] eqn:Hread.
  { destruct (read_at_inl _ _ _ _ Hread) as [-> _]. left. now exists e. }
  pose proof (read_at_inr _ _ _ _ Hread) as (-> & _ & _).
  right. exists content.
  unfold write_at, create_at.
  rewrite node_at_objectKey, parent_objectKey, node_at_objectsKey.
  rewrite objectKey_yo, objectsKey_yo, !Hnone.
  destruct (faulty w _); eauto.
Qed.

Lemma no_repository_commit w message :
  no_repository w ->
  exists cause,
    yoCommit message w = (inl (Errorf "failed to read staging area: %w" (Some cause)), w).
Proof.
  intros Hnone. rewrite yoCommit_at. unfold commit_at, bind, check, read_at.
  rewrite node_at_stagingKey, stagingKey_yo, Hnone.
  destruct (faulty w _); eauto.
Qed.

Lemma no_repository_log w :
  no_repository w ->
  exists cause, yoLog w = (inl (Errorf "failed to read log file: %w" (Some cause)), w).
Proof.
  intros Hnone. rewrite yoLog_run, logKey_yo, Hnone.
  destruct (faulty w _); eauto.
Qed.

(** ** The steps of [initialize] *)

Lemma mkdir_at_run base c w :
  files w !! (base ++ [c]) = None ->
  node_at (files w) base = Some Dir ->
  mkdir_at (base ++ [c]) w =
  if faulty w (SysMkdir (base ++ [c])) then (inl EIO, w)
  else (inr tt, with_files w (<[base ++ [c] := Dir]> (files w))).
Proof.
  intros Hnew Hbase. unfold mkdir_at.
  destruct (faulty w _); [reflexivity|].
  now rewrite node_at_sub, Hnew, parent_snoc, Hbase.
Qed.

(** [initialize] where nothing is at [.yo], step by step. *)
Lemma yoInit_steps w :
  cwd_exists w -> no_repository w ->
  faulty w SysGetwd = false -> faulty w (SysStat (yoKey w)) = false ->
  yoInit w =
  if faulty w (SysMkdir (yoKey w))
  then (inl (Errorf "failed to create .yo directory: %w" (Some EIO)), w)
  else if faulty w (SysMkdir (objectsKey w))
  then (inl (Errorf "failed to create .yo directory: %w" (Some EIO)),
        with_files w (yoMade w))
  else if faulty w (SysMkdir (logsKey w))
  then (inl (Errorf "failed to create logs directory: %w" (Some EIO)),
        with_files w (objectsMade w))
  else (inr tt, with_files w (initialized w)).
Proof.
  intros Hcwd Hnone Hwd Hstat.
  assert (Hyo : files w !! yoKey w = None)
    by (rewrite <- (app_nil_r (yoKey w)); apply Hnone).
  assert (Hobjs : files w !! objectsKey w = None)
    by (rewrite objectsKey_yo; apply Hnone).
  assert (Hlogs : files w !! logsKey w = None)
    by (rewrite logsKey_yo; apply Hnone).
  assert (Hroot : node_at (files w) (repoDir w) = Some Dir) by (apply Hcwd; reflexivity).
  rewrite yoInit_at. unfold init_at.
  rewrite bind_check_Getwd, Hwd. unfold bind at 1, attempt, stat_at.
  rewrite Hstat, node_at_yoKey, Hyo. cbn [fst snd err_of IsNotExist negb].
  unfold bind, check.
  (* .yo *)
  unfold objectsKey at 1.
  rewrite (mkdir_all_from_existing [".yo"; "objects"] (repoDir w) [] w) by exact Hcwd.
  cbn [app mkdir_all_from]. fold (yoKey w).
  rewrite node_at_yoKey, Hyo. unfold bind.
  unfold yoKey at 1. rewrite mkdir_at_run by assumption. fold (yoKey w).
  destruct (faulty w (SysMkdir (yoKey w))); [reflexivity|].
  (* .yo/objects *)
  fold (yoMade w). rewrite <- objectsKey_yo.
  cbn [files with_files]. rewrite node_at_objectsKey.
  unfold yoMade at 1. rewrite lookup_insert_ne by key_ne. rewrite Hobjs.
  assert (Hmk2 : mkdir_at (objectsKey w) (with_files w (yoMade w)) =
                 if faulty w (SysMkdir (objectsKey w)) then (inl EIO, with_files w (yoMade w))
                 else (inr tt, with_files w (objectsMade w))).
  { pose proof (mkdir_at_run (yoKey w) "objects" (with_files w (yoMade w))) as H.
    rewrite <- objectsKey_yo in H. cbn [files with_files faulty] in H. apply H.
    - unfold yoMade. rewrite lookup_insert_ne by key_ne. exact Hobjs.
    - rewrite node_at_yoKey. apply lookup_insert_eq. }
  rewrite Hmk2.
  destruct (faulty w (SysMkdir (objectsKey w))); [reflexivity|]. unfold ret.
  (* .yo/logs *)
  unfold logsKey at 1.
  rewrite (mkdir_all_from_existing [".yo"; "logs"] (repoDir w) []
             (with_files w (objectsMade w))).
  2:{ apply (cwd_exists_keep w (objectsMade w) Hcwd). intros q Hlen.
      unfold objectsMade, yoMade.
      rewrite !lookup_insert_ne; [reflexivity| |]; apply shorter_ne;
        rewrite ?yoKey_length, ?objectsKey_length; lia. }
  cbn [app mkdir_all_from]. fold (yoKey w). cbn [files with_files].
  rewrite node_at_yoKey. unfold objectsMade at 1, yoMade at 1.
  rewrite lookup_insert_ne by key_ne. rewrite lookup_insert_eq.
  rewrite <- logsKey_yo.
  rewrite node_at_logsKey. unfold objectsMade at 1, yoMade at 1.
  rewrite !lookup_insert_ne by key_ne. rewrite Hlogs. unfold bind.
  assert (Hmk3 : mkdir_at (logsKey w) (with_files w (objectsMade w)) =
                 if faulty w (SysMkdir (logsKey w))
                 then (inl EIO, with_files w (objectsMade w))
                 else (inr tt, with_files w (initialized w))).
  { pose proof (mkdir_at_run (yoKey w) "logs" (with_files w (objectsMade w))) as H.
    rewrite <- logsKey_yo in H. cbn [files with_files faulty] in H. apply H.
    - unfold objectsMade, yoMade. rewrite !lookup_insert_ne by key_ne. exact Hlogs.
    - rewrite node_at_yoKey. unfold objectsMade, yoMade.
      rewrite lookup_insert_ne by key_ne. apply lookup_insert_eq. }
  rewrite Hmk3.
  now destruct (faulty w (SysMkdir (logsKey w))).
Qed.

(** Any failure of [os.Stat] but a missing entry makes [initialize] say
    that [.yo] exists. *)
Lemma yoInit_stat_refused w :
  faulty w SysGetwd = false -> faulty w (SysStat (yoKey w)) = true ->
  yoInit w = (inl (Errorf ".yo directory already exists" None), w).
Proof.
  intros Hwd Hstat. rewrite yoInit_at. unfold init_at.
  rewrite bind_check_Getwd, Hwd. unfold bind, attempt, stat_at.
  now rewrite Hstat.
Qed.

(** ** The command line and the terminal interface *)

Lemma Update_run m msg :
  Ui.Update m msg = (m, if quits msg then Some Ui.Quit else None).
Proof.
  destruct msg as [name|]; [|reflexivity]. cbn [Ui.Update quits].
  destruct (decide (name = "ctrl+c")) as [->|H1]; [reflexivity|].
  rewrite (bool_decide_eq_false_2 _ H1), orb_false_r.
  destruct (decide (name = "q")) as [->|H2]; [reflexivity|].
  now rewrite (bool_decide_eq_false_2 _ H2).
Qed.

Lemma eventLoop_quiet m before rest :
  Forall (fun msg => quits msg = false) before ->
  Ui.eventLoop m (before ++ rest) =
  (repeat (Ui.View m) (length before) ++ fst (Ui.eventLoop m rest),
   snd (Ui.eventLoop m rest)).
Proof.
  induction 1 as [|msg before Hq _ IH]; cbn [app length repeat].
  - now destruct (Ui.eventLoop m rest).
  - cbn [Ui.eventLoop]. now rewrite Update_run, Hq, IH.
Qed.



Lemma yoLog_keeps w : snd (yoLog w) = w.
Proof.
  rewrite yoLog_run. destruct (faulty w _); [reflexivity|].
  now destruct (files w !! logKey w) as [[c|]|].
Qed.

Lemma line_count_logEntry hash message t :
  line_count (logEntry hash message t) =
  (4 + count_char LF hash + count_char LF message + count_char LF t)%nat.
Proof.
  unfold line_count, logEntry. rewrite !count_char_app.
  change (count_char LF "Commit: ") with 0%nat.
  change (count_char LF "Message: ") with 0%nat.
  change (count_char LF "Time: ") with 0%nat.
  change (count_char LF newline) with 1%nat. lia.
Qed.

(** ** More sample runs *)


Lemma no_logs_world_cwd_exists : cwd_exists no_logs_world.
Proof.
  intros q [k Hk]. change (repoDir no_logs_world) with ["home"] in Hk.
  destruct q as [|c [|c' q]]; [reflexivity| |discriminate].
  injection Hk as <- _. reflexivity.
Qed.

Lemma no_logs_world_no_repository : no_repository no_logs_world.
Proof.
  intros rest. change (yoKey no_logs_world) with ["home"; ".yo"].
  cbn [files no_logs_world app].
  rewrite lookup_insert_ne by discriminate.
  now rewrite lookup_singleton_ne by discriminate.
Qed.

(** ** Objects addressed by content *)



(** ** Entries of the staging record *)

Lemma string_app_same_length (s1 s2 t1 t2 : string) :
  String.length s1 = String.length s2 ->
  s1 +:+ t1 = s2 +:+ t2 -> s1 = s2 /\ t1 = t2.
Proof.
  revert s2. induction s1 as [|c s1 IH]; intros [|d s2] Hlen H; try discriminate Hlen.
  - now split.
  - rewrite !string_app_cons in H. injection H as -> H. injection Hlen as Hlen.
    destruct (IH _ Hlen H) as [-> ->]. now split.
Qed.

(** * Further properties of the code *)

(** X1 (before [init]).  Where nothing is at [.yo] or below it, no
    operation but [yoInit] gets anywhere, and none makes the repository on
    its own: [yoAdd] fails on reading the file or, the file read, on
    writing the object; [yoCommit] fails on reading the staging record;
    [yoLog] fails on reading the log.  Each leaves the world as it was. *)
Theorem X1_before_init (w : World) :
  no_repository w ->
  (forall file,
     (exists cause,
        yoAdd file w = (inl (Errorf "failed to read file: %w" (Some cause)), w)) \/
     (exists content cause,
        ReadFile file w = (inr content, w) /\
        yoAdd file w = (inl (Errorf "failed to write object file: %w" (Some cause)), w))) /\
  (forall message, exists cause,
     yoCommit message w =
     (inl (Errorf "failed to read staging area: %w" (Some cause)), w)) /\
  (exists cause, yoLog w = (inl (Errorf "failed to read log file: %w" (Some cause)), w)).
Proof.
  intros Hnone. split; [|split].
  - intros file. apply no_repository_add, Hnone.
  - intros message. apply no_repository_commit, Hnone.
  - apply no_repository_log, Hnone.
Qed.

Lemma X1_before_init_witness :
  (forall file,
     (exists cause,
        yoAdd file home_world = (inl (Errorf "failed to read file: %w" (Some cause)), home_world)) \/
     (exists content cause,
        ReadFile file home_world = (inr content, home_world) /\
        yoAdd file home_world =
        (inl (Errorf "failed to write object file: %w" (Some cause)), home_world))) /\
  (forall message, exists cause,
     yoCommit message home_world =
     (inl (Errorf "failed to read staging area: %w" (Some cause)), home_world)) /\
  (exists cause,
     yoLog home_world = (inl (Errorf "failed to read log file: %w" (Some cause)), home_world)).
Proof. exact (X1_before_init home_world home_world_no_repository). Defined.



(** X3 (when [yoAdd] succeeds).  Staging a file succeeds exactly when the
    file can be read, the object can be written (no call is refused, and
    at its place there is a file, or nothing and [.yo/objects] exists), and
    the staging record can be opened and appended to (likewise, under
    [.yo]).  It then changes two places and no other: the object, which
    holds what was read, and the staging record, which gains one entry. *)
Theorem X3_add_succeeds (w : World) (file : string) (w' : World) :
  yoAdd file w = (inr tt, w') <->
  exists content,
    ReadFile file w = (inr content, w) /\
    faulty w (SysCreate (objectKey w (hashObject content))) = false /\
    writable (files w) (objectKey w (hashObject content)) = true /\
    faulty w (SysOpen (stagingKey w)) = false /\
    writable (files w) (stagingKey w) = true /\
    faulty w (SysWrite (stagingKey w)) = false /\
    w' = with_files w
           (<[stagingKey w := File (content_or_empty (files w) (stagingKey w) +:+
                                    stagingEntry (hashObject content) file)]>
              (<[objectKey w (hashObject content) := File content]> (files w))).
Proof. apply yoAdd_succeeds. Qed.

(** X4 (staging the same content again).  When a file is staged, and
    staged again while it still reads the same, the second call succeeds
    and leaves every place but the staging record as the first call left
    it: the object is written over with the bytes it holds.  The staging
    record holds the same entry twice: entries are not merged. *)
Theorem X4_add_again (w : World) (file : string) (w1 : World) (b : string) :
  yoAdd file w = (inr tt, w1) ->
  ReadFile file w = (inr b, w) ->
  ReadFile file w1 = (inr b, w1) ->
  exists w2,
    yoAdd file w1 = (inr tt, w2) /\
    (forall k, k <> stagingKey w -> files w2 !! k = files w1 !! k) /\
    stagingRecord w2 =
      Some (content_or_empty (files w) (stagingKey w) +:+
            stagingEntry (hashObject b) file +:+ stagingEntry (hashObject b) file).
Proof.
  intros Hrun Hread Hread1.
  apply yoAdd_succeeds in Hrun as (content & Hr & Hf1 & Hw1 & Hf2 & Hw2 & Hf3 & ->).
  unfold ReadFile, at_path in Hread, Hread1.
  rewrite Hread in Hr. injection Hr as <-.
  set (w1 := with_files w (stagingAppended w file b)) in *.
  assert (Henv : same_env w w1) by now repeat split.
  assert (Hobj : files w1 !! objectKey w (hashObject b) = Some (File b)).
  { cbn [files w1 with_files]. unfold stagingAppended, objectStored.
    rewrite lookup_insert_ne by apply not_eq_sym, object_staging_ne.
    apply lookup_insert_eq. }
  assert (Hst : files w1 !! stagingKey w =
                Some (File (content_or_empty (files w) (stagingKey w) +:+
                            stagingEntry (hashObject b) file)))
    by apply lookup_insert_eq.
  exists (with_files w1 (stagingAppended w1 file b)).
  split; [|split].
  - apply yoAdd_succeeds. exists b.
    rewrite (objectKey_env w w1), (stagingKey_env w w1) by exact Henv.
    repeat split; try assumption.
    + unfold writable. now rewrite node_at_objectKey, Hobj.
    + unfold writable. now rewrite node_at_stagingKey, Hst.
  - intros k Hk. cbn [files with_files]. unfold stagingAppended, objectStored.
    rewrite (objectKey_env w w1), (stagingKey_env w w1) by exact Henv.
    rewrite lookup_insert_ne by (apply not_eq_sym, Hk).
    destruct (decide (k = objectKey w (hashObject b))) as [->|Hne].
    + now rewrite lookup_insert_eq, Hobj.
    + now rewrite lookup_insert_ne by (apply not_eq_sym, Hne).
  - unfold stagingRecord. places_of w. cbn [files with_files]. unfold stagingAppended.
    rewrite (stagingKey_env w w1) by exact Henv.
    rewrite lookup_insert_eq. rewrite (content_or_empty_file _ _ _ Hst).
    now rewrite string_app_assoc.
Qed.

Lemma X4_add_again_witness :
  exists w2,
    yoAdd "a.txt" staged_world = (inr tt, w2) /\
    (forall k, k <> stagingKey repo_world -> files w2 !! k = files staged_world !! k) /\
    stagingRecord w2 =
      Some (content_or_empty (files repo_world) (stagingKey repo_world) +:+
            stagingEntry (hashObject "hello") "a.txt" +:+
            stagingEntry (hashObject "hello") "a.txt").
Proof.
  apply (X4_add_again repo_world "a.txt" staged_world "hello" sample_add); evaluated.
Defined.

(** X5 (when [yoCommit] succeeds).  A commit succeeds exactly when the
    staging record is a file that can be read (empty or not: its content is
    not looked at), the commit object can be written, the log can be opened
    and appended to, and the staging record can be removed.  It then
    changes three places and no other: its object, the log, and the staging
    record; and it has read the clock twice. *)
Theorem X5_commit_succeeds (w : World) (message : string) (w' : World) :
  yoCommit message w = (inr tt, w') <->
  exists stagingBytes,
    faulty w (SysRead (stagingKey w)) = false /\
    files w !! stagingKey w = Some (File stagingBytes) /\
    let digest := commitHash stagingBytes message (clock w (ticks w)) in
    let record := logEntry digest message (time_RFC1123 (clock w (S (ticks w)))) in
    faulty w (SysCreate (objectKey w digest)) = false /\
    writable (files w) (objectKey w digest) = true /\
    faulty w (SysOpen (logKey w)) = false /\
    writable (files w) (logKey w) = true /\
    faulty w (SysWrite (logKey w)) = false /\
    faulty w (SysRemove (stagingKey w)) = false /\
    w' = with_files (tick (tick w))
           (delete (stagingKey w)
              (<[logKey w := File (content_or_empty (files w) (logKey w) +:+ record)]>
                 (<[objectKey w digest := File stagingBytes]> (files w)))).
Proof.
  rewrite yoCommit_succeeds. unfold staged.
  split; intros (s & H); exists s; [destruct H as ((H1 & H2) & H)|destruct H as (H1 & H2 & H)];
    repeat split; try assumption; apply H.
Qed.

(** X6 (the message goes into the log as it is).  The record a commit
    appends to the log has four line ends of its own, and the message and
    the time are written into it as they are: a message with a line break
    in it gives a record of more than four lines. *)
Theorem X6_commit_record_lines (w : World) (message : string) (w' : World) :
  yoCommit message w = (inr tt, w') ->
  exists stagingBytes,
    stagingRecord w = Some stagingBytes /\
    let digest := commitHash stagingBytes message (clock w (ticks w)) in
    let time := time_RFC1123 (clock w (S (ticks w))) in
    let record :=
      "Commit: " +:+ digest +:+ newline +:+ "Message: " +:+ message +:+ newline +:+
      "Time: " +:+ time +:+ newline +:+ newline in
    historyLog w' = Some (content_or_empty (files w) (logKey w) +:+ record) /\
    line_count record = (4 + count_char LF message + count_char LF time)%nat /\
    (occurs LF message = true -> (4 < line_count record)%nat).
Proof.
  intros Hrun. destruct (yoCommit_ok _ _ _ Hrun) as (s & Hs & ->).
  exists s. split; [now apply staged_record|]. cbv zeta.
  fold (logEntry (commitHash s message (clock w (ticks w))) message
          (time_RFC1123 (clock w (S (ticks w))))).
  fold (commitDigest w message s). fold (commitRecord w message s).
  assert (Hcount : line_count (commitRecord w message s) =
                   (4 + count_char LF message +
                    count_char LF (time_RFC1123 (clock w (S (ticks w)))))%nat).
  { unfold commitRecord. rewrite line_count_logEntry.
    unfold commitDigest, commitHash.
    rewrite (count_char_none LF (hashObject _)) by apply hashObject_no_newline. lia. }
  split; [|split; [exact Hcount|]].
  - unfold historyLog. places_of w. cbn [files with_files].
    now rewrite stagingCleared_log.
  - intros Hlf%count_char_occurs. rewrite Hcount. lia.
Qed.

Lemma X6_commit_record_lines_witness :
  exists stagingBytes,
    stagingRecord staged_world = Some stagingBytes /\
    let digest := commitHash stagingBytes "first" (clock staged_world (ticks staged_world)) in
    let time := time_RFC1123 (clock staged_world (S (ticks staged_world))) in
    let record :=
      "Commit: " +:+ digest +:+ newline +:+ "Message: " +:+ "first" +:+ newline +:+
      "Time: " +:+ time +:+ newline +:+ newline in
    historyLog committed_world =
      Some (content_or_empty (files staged_world) (logKey staged_world) +:+ record) /\
    line_count record = (4 + count_char LF "first" + count_char LF time)%nat /\
    (occurs LF "first" = true -> (4 < line_count record)%nat).
Proof.
  exact (X6_commit_record_lines staged_world "first" committed_world sample_commit).
Defined.

(** X7 (a failed [yoInit] is not rolled back).  Where nothing is at [.yo]
    and the working directory exists, [yoInit] makes [.yo], [.yo/objects]
    and [.yo/logs] in turn and stops at the first directory it cannot make,
    leaving those made before.  Once [.yo] is made, running [yoInit] again
    does not complete the repository: it answers that [.yo] exists.  And
    when [os.Stat] fails for any reason but a missing entry, [yoInit]
    answers that [.yo] exists although nothing is there. *)
Theorem X7_init_failures (w : World) :
  cwd_exists w -> no_repository w -> faulty w SysGetwd = false ->
  (faulty w (SysStat (yoKey w)) = true ->
   yoInit w = (inl (Errorf ".yo directory already exists" None), w)) /\
  (faulty w (SysStat (yoKey w)) = false ->
   yoInit w =
   if faulty w (SysMkdir (yoKey w))
   then (inl (Errorf "failed to create .yo directory: %w" (Some EIO)), w)
   else if faulty w (SysMkdir (objectsKey w))
   then (inl (Errorf "failed to create .yo directory: %w" (Some EIO)),
         with_files w (<[yoKey w := Dir]> (files w)))
   else if faulty w (SysMkdir (logsKey w))
   then (inl (Errorf "failed to create logs directory: %w" (Some EIO)),
         with_files w (<[objectsKey w := Dir]> (<[yoKey w := Dir]> (files w))))
   else (inr tt, with_files w (initialized w))) /\
  (forall e w1,
     yoInit w = (inl e, w1) -> w1 <> w ->
     yoInit w1 = (inl (Errorf ".yo directory already exists" None), w1)).
Proof.
  intros Hcwd Hnone Hwd.
  split; [now apply yoInit_stat_refused|].
  split; [now apply yoInit_steps|].
  intros e w1 Hrun Hne.
  destruct (faulty w (SysStat (yoKey w))) eqn:Hstat.
  { rewrite (yoInit_stat_refused w Hwd Hstat) in Hrun. injection Hrun as _ <-.
    now destruct Hne. }
  rewrite (yoInit_steps w Hcwd Hnone Hwd Hstat) in Hrun.
  destruct (faulty w (SysMkdir (yoKey w))); [injection Hrun as _ <-; now destruct Hne|].
  destruct (faulty w (SysMkdir (objectsKey w))).
  { injection Hrun as _ <-. apply yoInit_guard; [exact Hwd|].
    places_of w. cbn [files with_files]. unfold yoMade.
    rewrite lookup_insert_eq. now exists Dir. }
  destruct (faulty w (SysMkdir (logsKey w))); [|discriminate].
  injection Hrun as _ <-. apply yoInit_guard; [exact Hwd|].
  places_of w. cbn [files with_files]. unfold objectsMade, yoMade.
  rewrite lookup_insert_ne by key_ne. rewrite lookup_insert_eq. now exists Dir.
Qed.

Lemma X7_init_failures_witness :
  yoInit no_logs_world =
    (inl (Errorf "failed to create logs directory: %w" (Some EIO)),
     with_files no_logs_world
       (<[objectsKey no_logs_world := Dir]>
          (<[yoKey no_logs_world := Dir]> (files no_logs_world)))) /\
  forall e w1,
    yoInit no_logs_world = (inl e, w1) -> w1 <> no_logs_world ->
    yoInit w1 = (inl (Errorf ".yo directory already exists" None), w1).
Proof.
  destruct (X7_init_failures no_logs_world no_logs_world_cwd_exists
              no_logs_world_no_repository eq_refl) as (_ & Hsteps & Hagain).
  split; [exact (Hsteps eq_refl) | exact Hagain].
Defined.

(** X8 ([yoInit] only adds directories).  Whatever it returns, [yoInit]
    leaves every entry that exists as it is, inside [.yo] or outside; an
    entry it makes is a directory, at a place on the way to [.yo/objects]
    or to [.yo/logs] where nothing was. *)
Theorem X8_init_only_adds (w : World) (k : Path) :
  files (snd (yoInit w)) !! k = files w !! k \/
  (files w !! k = None /\ files (snd (yoInit w)) !! k = Some Dir /\
   (k `prefix_of` objectsKey w \/ k `prefix_of` logsKey w)).
Proof. apply yoInit_grows. Qed.

(** X9 (the history only grows).  Whatever operations follow, in whatever
    order and whether they succeed or fail, what the history log holds
    stays at the head of what it holds afterwards: no operation rewrites,
    truncates or removes the log. *)
Theorem X9_history_grows (ops : list Op) (w : World) (content : string) :
  historyLog w = Some content ->
  exists more, historyLog (run_ops ops w) = Some (content +:+ more).
Proof.
  revert w content. induction ops as [|op ops IH]; intros w content H; cbn [run_ops].
  - exists EmptyString. now rewrite string_app_nil_r.
  - destruct (history_step op w content H) as [more1 H1].
    destruct (IH _ _ H1) as [more2 H2].
    exists (more1 +:+ more2). now rewrite <- string_app_assoc.
Qed.

Lemma X9_history_grows_witness :
  exists more,
    historyLog (run_ops [OpAdd "a.txt"; OpCommit "second"; OpInit; OpLog] committed_world) =
    Some (first_record +:+ more).
Proof.
  apply (X9_history_grows [OpAdd "a.txt"; OpCommit "second"; OpInit; OpLog] committed_world).
  evaluated.
Defined.

(** X10 (what the operations never do).  Whatever operations run, each
    file and directory outside [.yo] stays as it is: the tool never writes
    to, or removes, a file of the working directory.  And no entry but the
    staging record is ever removed: an object, once stored, stays stored. *)
Theorem X10_nothing_lost (ops : list Op) (w : World) (k : Path) :
  (~ yoKey w `prefix_of` k ->
   forall n, files w !! k = Some n -> files (run_ops ops w) !! k = Some n) /\
  (k <> stagingKey w -> is_Some (files w !! k) -> is_Some (files (run_ops ops w) !! k)).
Proof.
  revert w. induction ops as [|op ops IH]; intros w; cbn [run_ops].
  - split; [now intros _ n H | now intros _ H].
  - destruct (kept_step op w k) as [H1 H2].
    destruct (IH (run_op op w)) as [H3 H4].
    rewrite (yoKey_env w (run_op op w)) in H3 by apply run_op_same_env.
    rewrite (stagingKey_env w (run_op op w)) in H4 by apply run_op_same_env.
    split.
    + intros Hout n Hn. apply H3; [exact Hout|]. now apply H1.
    + intros Hne Hk. apply H4; [exact Hne|]. now apply H2.
Qed.

Lemma X10_nothing_lost_witness :
  files (run_ops [OpAdd "a.txt"; OpCommit "second"; OpInit] staged_world) !! ["home"; "a.txt"] =
    Some (File "hello") /\
  is_Some (files (run_ops [OpAdd "a.txt"; OpCommit "second"; OpInit] staged_world)
             !! objectKey staged_world (hashObject "hello")).
Proof.
  split.
  - apply (proj1 (X10_nothing_lost [OpAdd "a.txt"; OpCommit "second"; OpInit] staged_world
                    ["home"; "a.txt"])); [|reflexivity].
    intros [rest H]. discriminate H.
  - apply (proj2 (X10_nothing_lost [OpAdd "a.txt"; OpCommit "second"; OpInit] staged_world
                    (objectKey staged_world (hashObject "hello")))).
    + apply object_staging_ne.
    + exists (File "hello"). evaluated.
Defined.

(** X11 (which commands change anything).  [main] changes the world only
    when it is given [init], [add] with a file, or [commit] with a message:
    a missing or unknown command, [add] or [commit] with nothing after it,
    and [log] leave everything as it is. *)
Theorem X11_main_changes (Args : list string) (w : World) :
  snd (Cli.main Args w) <> w ->
  exists prog rest,
    Args = prog :: "init" :: rest \/
    (exists file, Args = prog :: "add" :: file :: rest) \/
    (exists word, Args = prog :: "commit" :: word :: rest).
Proof.
  intros H. destruct Args as [|prog [|command rest]]; [now destruct H..|].
  exists prog. unfold Cli.main in H.
  destruct (decide (command = "init")) as [->|_]; [exists rest; now left|].
  destruct (decide (command = "add")) as [->|_].
  { destruct rest as [|file rest]; [now destruct H|].
    exists rest. right; left. now exists file. }
  destruct (decide (command = "commit")) as [->|_].
  { destruct rest as [|word rest]; [now destruct H|].
    exists rest. right; right. now exists word. }
  destruct (decide (command = "log")) as [->|_]; [|now destruct H].
  exfalso. apply H. rewrite <- (yoLog_keeps w) at 2.
  now destruct (yoLog w) as [[e|log] w'].
Qed.

Lemma X11_main_changes_witness :
  snd (Cli.main ["yo"; "init"] home_world) = repo_world /\
  exists prog rest,
    ["yo"; "init"] = prog :: "init" :: rest \/
    (exists file, ["yo"; "init"] = prog :: "add" :: file :: rest) \/
    (exists word, ["yo"; "init"] = prog :: "commit" :: word :: rest).
Proof.
  assert (Hrun : snd (Cli.main ["yo"; "init"] home_world) = repo_world).
  { change (Cli.main ["yo"; "init"] home_world)
      with (match yoInit home_world with
            | (inl err, w') => (Cli.Sprintf_v "Error initializing repository: %v" err, w')
            | (inr _, w') => (Cli.Text "Initialized empty Yo repository successfully!", w')
            end).
    now rewrite sample_init. }
  split; [exact Hrun|].
  apply (X11_main_changes ["yo"; "init"] home_world).
  rewrite Hrun. intros H.
  apply (f_equal (fun w => files w !! ["home"; ".yo"])) in H.
  vm_compute in H. discriminate H.
Defined.



(** X13 (the terminal interface).  The program run by [startUI] draws the
    same text every time, the message between an empty line and the hint
    to press q; no key and no other message changes it.  It goes on for as
    long as no message is the key [q] or [ctrl+c], and stops at the first
    that is, leaving the rest unread. *)
Theorem X13_ui_session (message : string) (before : list Ui.Msg) :
  Forall (fun msg => quits msg = false) before ->
  let frame := newline +:+ message +:+ newline +:+ newline +:+ "Press 'q' to quit." +:+ newline in
  Ui.startUI message before = (repeat frame (S (length before)), []) /\
  forall msg after,
    quits msg = true ->
    Ui.startUI message (before ++ msg :: after) =
    (repeat frame (S (S (length before))), after).
Proof.
  intros Hquiet. cbv zeta. unfold Ui.startUI. split.
  - rewrite <- (app_nil_r before) at 1. rewrite eventLoop_quiet by exact Hquiet.
    cbn [Ui.eventLoop fst snd]. now rewrite app_nil_r.
  - intros msg after Hq. rewrite eventLoop_quiet by exact Hquiet.
    cbn [Ui.eventLoop fst snd]. rewrite Update_run, Hq. cbn [fst snd].
    change (Ui.View (Ui.Model message) :: repeat (Ui.View (Ui.Model message)) (length before)
            ++ [Ui.View (Ui.Model message)])
      with (repeat (Ui.View (Ui.Model message)) (S (length before))
            ++ [Ui.View (Ui.Model message)]).
    now rewrite <- repeat_cons.
Qed.

Lemma X13_ui_session_witness :
  Ui.startUI "hello" [Ui.KeyMsg "a"; Ui.OtherMsg; Ui.KeyMsg "Q"; Ui.KeyMsg "q"; Ui.KeyMsg "x"] =
  (repeat (newline +:+ "hello" +:+ newline +:+ newline +:+ "Press 'q' to quit." +:+ newline) 5,
   [Ui.KeyMsg "x"]).
Proof.
  apply (proj2 (X13_ui_session "hello" [Ui.KeyMsg "a"; Ui.OtherMsg; Ui.KeyMsg "Q"]
                  ltac:(repeat constructor)) (Ui.KeyMsg "q") [Ui.KeyMsg "x"]).
  reflexivity.
Defined.





(** X16 (one entry, one digest and one path).  An entry of the staging
    record tells its digest and its path apart: the digest is its first
    forty characters, the path what lies between the space after them and
    the closing line end, whatever characters the path is made of. *)
Theorem X16_entry_unambiguous (content1 content2 file1 file2 : string) :
  stagingEntry (hashObject content1) file1 = stagingEntry (hashObject content2) file2 ->
  hashObject content1 = hashObject content2 /\ file1 = file2.
Proof.
  unfold stagingEntry. intros H.
  apply string_app_same_length in H as [Hhash H];
    [|now rewrite !hashObject_length].
  split; [exact Hhash|].
  apply string_app_inv_head in H.
  now apply string_app_inv_tail in H.
Qed.

Lemma X16_entry_unambiguous_witness :
  hashObject "hello" = hashObject "hello" /\ "a b.txt" = "a b.txt".
Proof.
  exact (X16_entry_unambiguous "hello" "hello" "a b.txt" "a b.txt" eq_refl).
Defined.
